(** * go-sri: Subresource Integrity checker

    A shallow embedding of [sri.go] and of the parts of the Go standard
    library it calls ([strings.Fields], [strings.IndexRune],
    [encoding/base64], [encoding/hex], [hash.Hash], [io.MultiWriter]),
    followed by the properties of the parser and of the incremental
    verifier.

    Go strings are byte sequences: they are modelled by [string], whose
    characters are the 8-bit [ascii]; a [[]byte] is a [list byte]. *)

From Stdlib Require Import String Ascii Strings.Byte List NArith ZArith Lia.
From Stdlib Require Import DecimalString.
From stdpp Require Import base option list gmap strings fin_maps.

Import ListNotations.
Local Open Scope string_scope.
Local Open Scope list_scope.

(** ** Bytes and characters *)

Definition byte_of_N (n : N) : byte := byte_of_ascii (ascii_of_N n).
Definition N_of_byte (b : byte) : N := Byte.to_N b.

Definition chr (n : N) : ascii := ascii_of_N n.
Definition ord (c : ascii) : N := N_of_ascii c.

(** [[]byte(s)] and [string(b)]. *)
Definition bytes_of_string (s : string) : list byte := list_byte_of_string s.
Definition string_of_bytes (b : list byte) : string := string_of_list_byte b.

Definition str1 (c : ascii) : string := String c EmptyString.

(** ** package strings *)
Module strings.

(** The six ASCII white space characters of [asciiSpace]. *)
Definition asciiSpace (c : ascii) : bool :=
  let n := ord c in
  ((9 <=? n) && (n <=? 13) || (n =? 32))%N.

(** [unicode.IsSpace] on the rune that starts at the head of [s], as the
    number of bytes of its UTF-8 encoding, and [0] when the head of [s]
    does not start a white space rune.  The white space runes are
    U+0009..U+000D, U+0020, U+0085, U+00A0, U+1680, U+2000..U+200A,
    U+2028, U+2029, U+202F, U+205F and U+3000.  None of their first bytes
    is a UTF-8 continuation byte, so such a sequence always starts on a
    rune boundary of Go's decoder, whatever precedes it. *)
Definition spaceWidth (s : string) : nat :=
  match s with
  | EmptyString => 0
  | String c r =>
      if asciiSpace c then 1
      else
        match r with
        | EmptyString => 0
        | String d r' =>
            if (ord c =? 194)%N then
              if ((ord d =? 133) || (ord d =? 160))%N then 2 else 0
            else
              match r' with
              | EmptyString => 0
              | String e _ =>
                  let c := ord c in
                  let d := ord d in
                  let e := ord e in
                  if ((c =? 225) && (d =? 154) && (e =? 128))%N then 3
                  else if ((c =? 226) && (d =? 128)
                           && ((128 <=? e) && (e <=? 138)
                               || (e =? 168) || (e =? 169) || (e =? 175)))%N
                  then 3
                  else if ((c =? 226) && (d =? 129) && (e =? 159))%N then 3
                  else if ((c =? 227) && (d =? 128) && (e =? 128))%N then 3
                  else 0
              end
        end
  end.

(** The field being collected, if any ([start >= 0] in [FieldsFunc]). *)
Definition flush (cur : option string) : list string :=
  match cur with
  | Some f => [f]
  | None => []
  end.

Definition extend (cur : option string) (c : ascii) : option string :=
  match cur with
  | Some f => Some (f +:+ str1 c)
  | None => Some (str1 c)
  end.

(** [skip] counts the remaining bytes of a white space rune whose first
    byte has been consumed. *)
Fixpoint fieldsFrom (skip : nat) (cur : option string) (s : string)
  : list string :=
  match s with
  | EmptyString => flush cur
  | String c r =>
      match skip with
      | S k => fieldsFrom k cur r
      | O =>
          match spaceWidth s with
          | S w => flush cur ++ fieldsFrom w None r
          | O => fieldsFrom 0 (extend cur c) r
          end
      end
  end.

(** [strings.Fields]: the maximal runs of non white space. *)
Definition Fields (s : string) : list string := fieldsFrom 0 None s.

(** [strings.IndexByte]; [-1] when [c] does not occur. *)
Fixpoint IndexByte (s : string) (c : ascii) : Z :=
  match s with
  | EmptyString => (-1)%Z
  | String d r =>
      if Ascii.eqb d c then 0%Z
      else
        let i := IndexByte r c in
        if (i =? -1)%Z then (-1)%Z else (i + 1)%Z
  end.

(** [strings.IndexRune] for a rune below [utf8.RuneSelf]. *)
Definition IndexRune (s : string) (r : ascii) : Z := IndexByte s r.

(** The slices [s[:i]] and [s[i:]]. *)
Definition slice_to (s : string) (i : Z) : string :=
  substring 0 (Z.to_nat i) s.
Definition slice_from (s : string) (i : Z) : string :=
  substring (Z.to_nat i) (String.length s - Z.to_nat i) s.

Fixpoint Join (elems : list string) (sep : string) : string :=
  match elems with
  | [] => ""
  | [e] => e
  | e :: rest => e +:+ sep +:+ Join rest sep
  end.

End strings.

(** ** package encoding/hex *)
Module hex.

Definition hextable : string := "0123456789abcdef".

Definition digit (n : N) : ascii :=
  match String.get (N.to_nat n) hextable with
  | Some c => c
  | None => "0"%char
  end.

Fixpoint EncodeToString (src : list byte) : string :=
  match src with
  | [] => ""
  | b :: rest =>
      let v := N_of_byte b in
      String (digit (N.shiftr v 4))
        (String (digit (N.land v 15)) (EncodeToString rest))
  end.

End hex.

(** ** package encoding/base64, [StdEncoding] *)
Module base64.

Definition encodeStd : string :=
  "ABCDEFGHIJKLMNOPQRSTUVWXYZabcdefghijklmnopqrstuvwxyz0123456789+/".

Definition padChar : ascii := "="%char.

Definition enc (n : N) : ascii :=
  match String.get (N.to_nat (N.land n 63)) encodeStd with
  | Some c => c
  | None => "A"%char
  end.

Fixpoint EncodeToString (src : list byte) : string :=
  match src with
  | [] => ""
  | [a] =>
      let v := N.shiftl (N_of_byte a) 16 in
      String (enc (N.shiftr v 18)) (String (enc (N.shiftr v 12))
        (String padChar (String padChar "")))
  | [a; b] =>
      let v := N.lor (N.shiftl (N_of_byte a) 16) (N.shiftl (N_of_byte b) 8) in
      String (enc (N.shiftr v 18)) (String (enc (N.shiftr v 12))
        (String (enc (N.shiftr v 6)) (String padChar "")))
  | a :: b :: c :: rest =>
      let v := N.lor (N.lor (N.shiftl (N_of_byte a) 16)
                            (N.shiftl (N_of_byte b) 8)) (N_of_byte c) in
      String (enc (N.shiftr v 18)) (String (enc (N.shiftr v 12))
        (String (enc (N.shiftr v 6)) (String (enc v)
           (EncodeToString rest))))
  end.

(** [decodeMap]: the 6-bit value of a character of the alphabet, [None]
    for the [0xff] entries. *)
Definition decodeMap (c : ascii) : option N :=
  let n := ord c in
  if ((65 <=? n) && (n <=? 90))%N then Some (n - 65)%N
  else if ((97 <=? n) && (n <=? 122))%N then Some (n - 71)%N
  else if ((48 <=? n) && (n <=? 57))%N then Some (n + 4)%N
  else if (n =? 43)%N then Some 62%N
  else if (n =? 47)%N then Some 63%N
  else None.

Definition isNewline (c : ascii) : bool :=
  ((ord c =? 10) || (ord c =? 13))%N.

(** The offset carried by a [CorruptInputError]. *)
Definition CorruptInputError := nat.

(** The last step of [decodeQuantum]: the [dlen - 1] bytes of the
    quantum [dbuf] (missing 6-bit values are zero; the encoding is not
    strict, left-over bits are dropped). *)
Definition emit (dlen : nat) (dbuf : list N) : list byte :=
  let d i := nth i dbuf 0%N in
  let val := N.lor (N.lor (N.shiftl (d 0) 18) (N.shiftl (d 1) 12))
                   (N.lor (N.shiftl (d 2) 6) (d 3)) in
  take (dlen - 1)
    [byte_of_N (N.shiftr val 16); byte_of_N (N.shiftr val 8); byte_of_N val].

(** Where [decodeQuantum] stands in the current quantum. *)
Inductive mode :=
| Quantum (j : nat) (dbuf : list N)
    (* about to read value [j] of the quantum *)
| Pad2 (dbuf : list N)
    (* [j = 2], one padding character read, the second is expected *)
| Trail (dlen : nat) (dbuf : list N).
    (* padding complete: only newlines may follow *)

(** [Decode]: [si] is the offset of the head of [src] in the input and
    [dst] the bytes of the quanta decoded so far.  Returns the bytes
    written and the error, as Go returns both. *)
Fixpoint decode (src : string) (si : nat) (m : mode) (dst : list byte)
  : list byte * option CorruptInputError :=
  match src with
  | EmptyString =>
      match m with
      | Quantum O _ => (dst, None)
      | Quantum j _ => (dst, Some (si - j))
      | Pad2 _ => (dst, Some si)
      | Trail dlen dbuf => (dst ++ emit dlen dbuf, None)
      end
  | String c rest =>
      match m with
      | Quantum j dbuf =>
          match decodeMap c with
          | Some out =>
              if (j =? 3)%nat
              then decode rest (S si) (Quantum 0 [])
                     (dst ++ emit 4 (dbuf ++ [out]))
              else decode rest (S si) (Quantum (S j) (dbuf ++ [out])) dst
          | None =>
              if isNewline c then decode rest (S si) m dst
              else if negb (Ascii.eqb c padChar) then (dst, Some si)
              else
                match j with
                | 0 | 1 => (dst, Some si)
                | 2 => decode rest (S si) (Pad2 dbuf) dst
                | _ => decode rest (S si) (Trail j dbuf) dst
                end
          end
      | Pad2 dbuf =>
          if isNewline c then decode rest (S si) m dst
          else if negb (Ascii.eqb c padChar) then (dst, Some (si - 1))
          else decode rest (S si) (Trail 2 dbuf) dst
      | Trail dlen dbuf =>
          if isNewline c then decode rest (S si) m dst
          else (dst ++ emit dlen dbuf, Some si)
      end
  end.

Definition DecodeString (s : string)
  : list byte * option CorruptInputError :=
  decode s 0 (Quantum 0 []) [].

End base64.

(** ** Errors *)

(** One constructor per error value the package can return: the four
    [fmt.Errorf] sites of the parser, the one of [Check], and
    [io.ErrShortWrite] of [io.MultiWriter]. *)
Inductive error :=
| ErrSubstring (field : string)
| ErrUnknownHash (name : string)
| ErrBase64 (err : base64.CorruptInputError)
| ErrHashLength (value name : string) (size was : nat)
| ErrEmpty (sri : string)
| ErrIntegrity (msgs : list string)
| ErrShortWrite.

Definition itoa (n : nat) : string := NilEmpty.string_of_uint (Nat.to_uint n).

(** The [Error()] text of each error value. *)
Definition Error (e : error) : string :=
  match e with
  | ErrSubstring field =>
      "Invalid subresource integrity substring: " +:+ field
  | ErrUnknownHash name => "Unknown hash type " +:+ name
  | ErrBase64 off =>
      "Invalid base64 string: illegal base64 data at input byte " +:+ itoa off
  | ErrHashLength value name size was =>
      "Value " +:+ value +:+ " is not valid for hash type " +:+ name
      +:+ "; should be " +:+ itoa size +:+ " bytes, was " +:+ itoa was
  | ErrEmpty sri =>
      "Invalid subresource integrity string (empty?): " +:+ sri
  | ErrIntegrity msgs =>
      "subresource integrity failed: " +:+ strings.Join msgs "; "
  | ErrShortWrite => "short write"
  end.

(** The result of a call that returns [(value, error)].  [Panic] is a nil
    or dangling dereference. *)
Inductive result (A : Type) : Type :=
| Ok (a : A)
| Err (e : error)
| Panic.
Arguments Ok {A} a.
Arguments Err {A} e.
Arguments Panic {A}.

Definition bind {A B} (r : result A) (f : A -> result B) : result B :=
  match r with
  | Ok a => f a
  | Err e => Err e
  | Panic => Panic
  end.

Notation "'do' x <- r ; f" := (bind r (fun x => f))
  (at level 10, x pattern, r at level 100, f at level 200, only parsing).

(** ** package hash *)
Module hash.

(** A [hash.Hash] that honours the interface's contract: [Size] is fixed,
    [Write] appends to the running input and never fails, and [Sum]
    depends only on the bytes written so far and leaves them in place. *)
Record Hash := mkHash {
  size : nat;
  digest : list byte -> list byte;
  written : list byte
}.

Definition Size (h : Hash) : nat := size h.

(** [Write] returns [len(p), nil]. *)
Definition Write (h : Hash) (p : list byte) : Hash * (nat * option error) :=
  (mkHash (size h) (digest h) (written h ++ p), (length p, None)).

Definition Sum (h : Hash) (b : list byte) : list byte :=
  b ++ digest h (written h).

End hash.

(** ** The store of accumulators *)

(** Accumulators are objects shared between [Checker.hashes] and the
    writers behind [Checker.w]: both hold references (indices) into the
    store. *)
Abbreviation addr := nat (only parsing).
Abbreviation heap := (list hash.Hash) (only parsing).

Definition alloc (hp : heap) (h : hash.Hash) : heap * addr :=
  (hp ++ [h], length hp).

(** [h.Write(p)] on the accumulator stored at [a]; [None] for a
    reference to nothing. *)
Definition hashWrite (hp : heap) (a : addr) (p : list byte)
  : option (heap * (nat * option error)) :=
  match hp !! a with
  | Some h =>
      let '(h', ret) := hash.Write h p in
      Some (<[a := h']> hp, ret)
  | None => None
  end.

(** ** package io *)
Module io.

(** The writers [sri.go] builds: one accumulator, or the [multiWriter]
    returned by [io.MultiWriter]. *)
Inductive Writer :=
| HashWriter (a : addr)
| multiWriter (writers : list addr).

Definition MultiWriter (writers : list addr) : Writer := multiWriter writers.

(** The [Write] method of [multiWriter]: it stops at the first writer
    that fails or writes short.  [None] is a panic. *)
Fixpoint multiWrite (hp : heap) (writers : list addr) (p : list byte)
  : option (heap * (nat * option error)) :=
  match writers with
  | [] => Some (hp, (length p, None))
  | w :: rest =>
      match hashWrite hp w p with
      | None => None
      | Some (hp', (n, Some err)) => Some (hp', (n, Some err))
      | Some (hp', (n, None)) =>
          if decide (n ≠ length p) then Some (hp', (n, Some ErrShortWrite))
          else multiWrite hp' rest p
      end
  end.

Definition Write (hp : heap) (w : Writer) (p : list byte)
  : option (heap * (nat * option error)) :=
  match w with
  | HashWriter a => hashWrite hp a p
  | multiWriter writers => multiWrite hp writers p
  end.

End io.

(** ** package sri *)

(** A [HashFunc] returns a new [hash.Hash] instance: it is given by the
    output size and the digest function of the instances it creates. *)
Record HashFunc := mkHashFunc {
  hashSize : nat;
  hashDigest : list byte -> list byte
}.

(** Calling a [HashFunc]. *)
Definition newHash (f : HashFunc) : hash.Hash :=
  hash.mkHash (hashSize f) (hashDigest f) [].

Record Checker := mkChecker {
  expected : gmap string (list string);
  hashes : gmap string addr;
  w : option io.Writer
}.

(** [c.expected[name]]: a missing key reads as the nil slice. *)
Definition expected_at (c : Checker) (name : string) : list string :=
  default [] (expected c !! name).

Definition validateHash (hp : heap) (h : addr) (name value : string)
  : result unit :=
  let '(decoded, err) := base64.DecodeString value in
  match err with
  | Some e => Err (ErrBase64 e)
  | None =>
      match hp !! h with
      | None => Panic
      | Some hh =>
          if decide (length decoded ≠ hash.Size hh)
          then Err (ErrHashLength value name (hash.Size hh) (length decoded))
          else Ok tt
      end
  end.

(** [addHash] returns the new accumulator ([None] for Go's nil) together
    with the updated store and checker. *)
Definition addHash (hp : heap) (c : Checker) (name value : string)
    (table : gmap string HashFunc)
  : result (heap * Checker * option addr) :=
  match hashes c !! name with
  | Some h =>
      do _ <- validateHash hp h name value;
      Ok (hp,
          mkChecker (<[name := expected_at c name ++ [value]]> (expected c))
                    (hashes c) (w c),
          None)
  | None =>
      match table !! name with
      | None => Err (ErrUnknownHash name)
      | Some hash =>
          let '(hp', h) := alloc hp (newHash hash) in
          do _ <- validateHash hp' h name value;
          Ok (hp',
              mkChecker (<[name := [value]]> (expected c))
                        (<[name := h]> (hashes c)) (w c),
              Some h)
      end
  end.

(** The body of the [for _, field := range strings.Fields(sri)] loop. *)
Fixpoint fieldsLoop (fields : list string) (hp : heap) (c : Checker)
    (writers : list addr) (table : gmap string HashFunc)
  : result (heap * Checker * list addr) :=
  match fields with
  | [] => Ok (hp, c, writers)
  | field :: rest =>
      let idx := strings.IndexRune field "-"%char in
      if (idx =? -1)%Z then Err (ErrSubstring field)
      else
        do (hp', c', h) <-
          addHash hp c (strings.slice_to field idx)
                  (strings.slice_from field (idx + 1)) table;
        fieldsLoop rest hp' c'
          (match h with Some a => writers ++ [a] | None => writers end) table
  end.

(** [NewCheckerForHashes], run on the store [hp]. *)
Definition NewCheckerForHashes (hp : heap) (sri : string)
    (table : gmap string HashFunc) : result (heap * Checker) :=
  let c := mkChecker ∅ ∅ None in
  do (hp', c', writers) <- fieldsLoop (strings.Fields sri) hp c [] table;
  match writers with
  | [] => Err (ErrEmpty sri)
  | [w0] => Ok (hp', mkChecker (expected c') (hashes c') (Some (io.HashWriter w0)))
  | _ => Ok (hp', mkChecker (expected c') (hashes c')
                    (Some (io.MultiWriter writers)))
  end.

(** [Write]: [None] is the panic on a nil [c.w]. *)
Definition Write (hp : heap) (c : Checker) (b : list byte)
  : option (heap * (nat * option error)) :=
  match w c with
  | Some wr => io.Write hp wr b
  | None => None
  end.

Fixpoint contains (haystack : list string) (needle : string) : bool :=
  match haystack with
  | [] => false
  | straw :: rest =>
      if String.eqb straw needle then true else contains rest needle
  end.

Definition describeExpected (expected : list string) : string :=
  match expected with
  | [e] => e
  | _ => "one of [" +:+ strings.Join expected ", " +:+ "]"
  end.

(** [toHex]: [ret] is allocated with [len(expected)] empty strings and
    filled in index by index; the decoding error is dropped. *)
Fixpoint toHexFrom (i : nat) (expected : list string) (ret : list string)
  : list string :=
  match expected with
  | [] => ret
  | e :: rest =>
      let '(raw, _) := base64.DecodeString e in
      toHexFrom (S i) rest (<[i := hex.EncodeToString raw]> ret)
  end.

Definition toHex (expected : list string) : list string :=
  toHexFrom 0 expected (replicate (length expected) "").

(** One iteration of the loop of [Check]: the message appended for
    [name], if any. *)
Definition checkHash (hp : heap) (c : Checker) (name : string) (a : addr)
  : option (list string) :=
  match hp !! a with
  | None => None
  | Some hash =>
      let expected := expected_at c name in
      let h := hash.Sum hash [] in
      let value := base64.EncodeToString h in
      if negb (contains expected value) then
        let hexValue := hex.EncodeToString h in
        Some ["violated " +:+ name +:+ " integrity check; was " +:+ value
              +:+ ", expected " +:+ describeExpected expected
              +:+ " (a.k.a. was " +:+ hexValue +:+ ", expected "
              +:+ describeExpected (toHex expected) +:+ ")"]
      else Some []
  end.

(** The messages collected when the map [c.hashes] is ranged over in the
    order [order]. *)
Fixpoint checkMsgs (hp : heap) (c : Checker) (order : list (string * addr))
    (msgs : list string) : option (list string) :=
  match order with
  | [] => Some msgs
  | (name, a) :: rest =>
      match checkHash hp c name a with
      | None => None
      | Some m => checkMsgs hp c rest (msgs ++ m)
      end
  end.

(** [Check] for a given iteration order of [c.hashes] (Go leaves the order
    of a map range unspecified).  The outer [None] is a panic, the inner
    one the nil error. *)
Definition CheckIn (order : list (string * addr)) (hp : heap) (c : Checker)
  : option (option error) :=
  match checkMsgs hp c order [] with
  | None => None
  | Some msgs =>
      if decide (length msgs ≠ 0) then Some (Some (ErrIntegrity msgs))
      else Some None
  end.

Definition Check (hp : heap) (c : Checker) : option (option error) :=
  CheckIn (map_to_list (hashes c)) hp c.

Definition Expected (c : Checker) (name : string) : list string :=
  expected_at c name.

(** Modelled from the spec: [ExpectedHex], the hex-form lookup
    [expectedValuesHex(name)], is called by the tests but its definition is
    not in [sri.go].  By the spec it returns the expected values of [name]
    with each base64 entry decoded and re-encoded as hex, which is [toHex]
    of the source applied to [c.expected[name]]. *)
Definition ExpectedHex (c : Checker) (name : string) : list string :=
  toHex (expected_at c name).

(** *** The presets *)

Section Presets.

(** The digest functions of [crypto/sha1], [crypto/sha256] and
    [crypto/sha512]. *)
Variables sha1_sum sha256_sum sha384_sum sha512_sum
  : list byte -> list byte.

Definition sha1_New : HashFunc := mkHashFunc 20 sha1_sum.
Definition sha256_New : HashFunc := mkHashFunc 32 sha256_sum.
Definition sha512_New384 : HashFunc := mkHashFunc 48 sha384_sum.
Definition sha512_New : HashFunc := mkHashFunc 64 sha512_sum.

Definition defaultHashes : gmap string HashFunc :=
  <["sha256" := sha256_New]>
    (<["sha384" := sha512_New384]> (<["sha512" := sha512_New]> ∅)).

Definition sha1Hashes : gmap string HashFunc :=
  <["sha1" := sha1_New]> defaultHashes.

Definition NewChecker (hp : heap) (sri : string) : result (heap * Checker) :=
  NewCheckerForHashes hp sri defaultHashes.

Definition NewCheckerWithSHA1 (hp : heap) (sri : string)
  : result (heap * Checker) :=
  NewCheckerForHashes hp sri sha1Hashes.

End Presets.

(** A run of the verifier: the slices [bs] written one after the other,
    return values ignored as callers do. *)
Fixpoint WriteAll (hp : heap) (c : Checker) (bs : list (list byte))
  : option heap :=
  match bs with
  | [] => Some hp
  | b :: rest =>
      match Write hp c b with
      | Some (hp', _) => WriteAll hp' c rest
      | None => None
      end
  end.

(** ** A toy digest *)

(** A toy digest, for running the definitions: the sum of the bytes,
    repeated [n] times. *)
Definition toySum (n : nat) (b : list byte) : list byte :=
  replicate n (byte_of_N (fold_right (fun x acc => (N_of_byte x + acc)%N) 0%N b)).


(** ** The parser, token by token *)

(** The name and value a token is split into at its first ['-'], and
    [None] for a token without separator. *)
Definition splitField (field : string) : option (string * string) :=
  let idx := strings.IndexRune field "-"%char in
  if (idx =? -1)%Z then None
  else Some (strings.slice_to field idx, strings.slice_from field (idx + 1)).

Definition fieldNames (toks : list string) : list string :=
  fst <$> omap splitField toks.

(** The values of the tokens of [toks] named [name], in order. *)
Definition valuesFor (name : string) (toks : list string) : list string :=
  snd <$> filter (fun nv => nv.1 = name) (omap splitField toks).

(** The two checks on a value, in the order the descriptor format lists
    them: the encoding, then the decoded length against [size]. *)
Definition valueError (size : nat) (name value : string) : option error :=
  match base64.DecodeString value with
  | (_, Some e) => Some (ErrBase64 e)
  | (decoded, None) =>
      if decide (length decoded ≠ size)
      then Some (ErrHashLength value name size (length decoded))
      else None
  end.

(** The defect of one token, by the order of checks of the descriptor
    format: separator, algorithm lookup, value encoding, value length. *)
Definition tokenError (table : gmap string HashFunc) (field : string)
  : option error :=
  match splitField field with
  | None => Some (ErrSubstring field)
  | Some (name, value) =>
      match table !! name with
      | None => Some (ErrUnknownHash name)
      | Some f => valueError (hashSize f) name value
      end
  end.

(** The defect of the first defective token. *)
Fixpoint firstError (table : gmap string HashFunc) (toks : list string)
  : option error :=
  match toks with
  | [] => None
  | t :: rest =>
      match tokenError table t with
      | Some e => Some e
      | None => firstError table rest
      end
  end.

(** The error of a whole descriptor by these rules. *)
Definition parseError (table : gmap string HashFunc) (sri : string)
  : option error :=
  match firstError table (strings.Fields sri) with
  | Some e => Some e
  | None =>
      match strings.Fields sri with
      | [] => Some (ErrEmpty sri)
      | _ => None
      end
  end.

(** The writer [NewCheckerForHashes] installs for [writers]. *)
Definition writerOf (writers : list addr) : option io.Writer :=
  match writers with
  | [] => None
  | [w0] => Some (io.HashWriter w0)
  | _ => Some (io.MultiWriter writers)
  end.

(** The accumulator of [f] after [data] has been written to it. *)
Definition accum (f : HashFunc) (data : list byte) : hash.Hash :=
  hash.mkHash (hashSize f) (hashDigest f) data.

(** An accumulator after one more [Write] of [p]. *)
Definition feed (p : list byte) (h : hash.Hash) : hash.Hash :=
  (hash.Write h p).1.

(** The state reached from the store [hp0] once the tokens [toks] have
    been accepted and [data] has been written. *)
Record wf_state (hp0 : heap) (table : gmap string HashFunc)
    (toks : list string) (data : list byte)
    (hp : heap) (c : Checker) (writers : list addr) : Prop := {
  wf_cells : exists cells,
      hp = hp0 ++ cells /\ writers = seq (length hp0) (length cells);
  wf_size : size (hashes c) = length writers;
  wf_hashes : forall name a, hashes c !! name = Some a ->
      length hp0 <= a /\
      exists f, table !! name = Some f /\ hp !! a = Some (accum f data);
  wf_inj : forall n1 n2 a,
      hashes c !! n1 = Some a -> hashes c !! n2 = Some a -> n1 = n2;
  wf_names : forall name,
      is_Some (hashes c !! name) <-> name ∈ fieldNames toks;
  wf_expected_dom : forall name,
      is_Some (expected c !! name) <-> name ∈ fieldNames toks;
  wf_expected : forall name, expected_at c name = valuesFor name toks;
  wf_valid : firstError table toks = None
}.

(** A constructed [Checker] to which [data] has been written. *)
Definition built (hp0 : heap) (table : gmap string HashFunc)
    (toks : list string) (data : list byte) (hp : heap) (c : Checker)
  : Prop :=
  exists writers,
    wf_state hp0 table toks data hp c writers /\
    writers <> [] /\ w c = writerOf writers.

(** The two maps are co-indexed, one accumulator per name: [hp0] is the
    store before construction. *)
Definition coindexed (hp0 hp : heap) (c : Checker) : Prop :=
  dom (expected c) = dom (hashes c) /\
  size (hashes c) = length hp - length hp0 /\
  (forall n1 n2 a,
      hashes c !! n1 = Some a -> hashes c !! n2 = Some a -> n1 = n2) /\
  (forall name a, hashes c !! name = Some a ->
      length hp0 <= a /\ is_Some (hp !! a)).

(** A string made of white space runes only. *)
Inductive onlySpace : string -> Prop :=
| onlySpace_nil : onlySpace ""
| onlySpace_rune (r s : string) :
    strings.spaceWidth r = String.length r -> r <> "" ->
    onlySpace s -> onlySpace (r +:+ s).

(** ** Data for the examples *)

Definition toyTable : gmap string HashFunc :=
  <["t3" := mkHashFunc 3 (toySum 3)]> (<["t6" := mkHashFunc 6 (toySum 6)]> ∅).

(** Two values for [t3], one for [t6]; the digests of ["ab"] are [w8PD] and
    [w8PDw8PD]. *)
Definition toySri : string := "t3-w8PD t6-w8PDw8PD t3-AAAA".

Definition toyState : list hash.Hash * Checker :=
  match NewCheckerForHashes [] toySri toyTable with
  | Ok st => st
  | _ => ([], mkChecker ∅ ∅ None)
  end.

Definition toyWrites : list (list byte) :=
  [bytes_of_string "a"; bytes_of_string "b"].

(** An algorithm with no output. *)
Definition zeroTable : gmap string HashFunc :=
  <["z" := mkHashFunc 0 (fun _ => [])]> ∅.

(** The descriptor of [TestExpected] and [TestExpectedHex]. *)
Definition nl : string := String (chr 10) "".

Definition testSri : string :=
  nl +:+ "sha256-y1v31NktLrKLVp1gbS7zjWtYgDICENEw7hKLJHcw4E0=" +:+ nl +:+
  "sha384-4QuseiT9WQ+80EDZ/MYTodasdNBTLIC/9G1XmSQDmTjTvDM8q00Vgxa9nMgwUw3j"
  +:+ nl +:+
  "sha512-xLpYEEen45RJnXxmFACS66+sO/1Xuo192Xq6uIarYI4uE7MZevI2pTyoKUZAFVP9tvfhJTS6YjOJcMc8ckoRkw=="
  +:+ nl +:+ "sha256-49hwASqGvw3v5oq2Pu4U2jR2Pv9KCMm2VGFAqCwEXhI=" +:+ nl +:+
  "sha384-ixBUOCmT6wnGpEL5AxEsAm9EdJCBj7kF099SUkvIbtB63ydFdgNgXVj784BCcJ2k"
  +:+ nl +:+
  "sha512-jt9sSgTPOFnKQWLknlJEWjBq6UaOcjZzJOwlSgaEWr1b8IfmBmOMJZ91TmrZzjbUUB211oxxKEjyOBQHeXiDoA=="
  +:+ nl.

(** The store of the toy checker after [toyWrites]. *)
Definition toyFinal : list hash.Hash :=
  default [] (WriteAll toyState.1 toyState.2 toyWrites).

Definition toySri2 : string := "t3-w8PD t6-w8PDw8PD t3-AAAA t6-AAAAAAAA".

Definition toyState2 : list hash.Hash * Checker :=
  match NewCheckerForHashes [] toySri2 toyTable with
  | Ok st => st
  | _ => ([], mkChecker ∅ ∅ None)
  end.

Definition toyFinal2 : list hash.Hash :=
  default [] (WriteAll toyState2.1 toyState2.2 toyWrites).

(** The tokens of [toySri] in another order. *)
Definition toySri3 : string := "t6-w8PDw8PD t3-AAAA t3-w8PD".

Definition toyState3 : list hash.Hash * Checker :=
  match NewCheckerForHashes [] toySri3 toyTable with
  | Ok st => st
  | _ => ([], mkChecker ∅ ∅ None)
  end.

Definition toyFinal3 : list hash.Hash :=
  default [] (WriteAll toyState3.1 toyState3.2 toyWrites).

(** [NewCheckerWithSHA1] on the descriptor of [TestSHA1], with toy
    digests. *)
Definition sha1State : list hash.Hash * Checker :=
  match NewCheckerWithSHA1 (toySum 20) (toySum 32) (toySum 48) (toySum 64)
          [] "sha1-plyJ8jPttaMEVHl2WQbzDVT4pfU=" with
  | Ok st => st
  | _ => ([], mkChecker ∅ ∅ None)
  end.

(** ** Further specifications *)

(** The text [Check] records for an algorithm whose digest [h] is not
    among [expected]. *)
Definition violation (name : string) (h : list byte)
    (expected : list string) : string :=
  "violated " +:+ name +:+ " integrity check; was "
  +:+ base64.EncodeToString h +:+ ", expected " +:+ describeExpected expected
  +:+ " (a.k.a. was " +:+ hex.EncodeToString h +:+ ", expected "
  +:+ describeExpected (toHex expected) +:+ ")".

(** The message, if any, that the entry [(name, _)] of [c.hashes] adds
    when [data] has been written. *)
Definition failing (table : gmap string HashFunc) (c : Checker)
    (data : list byte) (entry : string * addr) : option string :=
  match table !! entry.1 with
  | Some f =>
      let h := hashDigest f data in
      if contains (Expected c entry.1) (base64.EncodeToString h) then None
      else Some (violation entry.1 h (Expected c entry.1))
  | None => None
  end.

(** Every character of [s] satisfies [p]. *)
Fixpoint allChars (p : ascii -> bool) (s : string) : bool :=
  match s with
  | EmptyString => true
  | String c r => p c && allChars p r
  end.

Definition isLowerHex (c : ascii) : bool :=
  let n := ord c in
  ((48 <=? n) && (n <=? 57) || (97 <=? n) && (n <=? 102))%N.

(** A character of the standard alphabet, or the padding character. *)
Definition isBase64Char (c : ascii) : bool :=
  match base64.decodeMap c with
  | Some _ => true
  | None => Ascii.eqb c base64.padChar
  end.

(** The 24 bits of a group of three bytes, a 6-bit value of it, and the
    24 bits of a quantum of four 6-bit values. *)
Definition group (a b c : N) : N :=
  N.lor (N.lor (N.shiftl a 16) (N.shiftl b 8)) c.

Definition sextet (v k : N) : N := N.land (N.shiftr v k) 63.

Definition quantum (d0 d1 d2 d3 : N) : N :=
  N.lor (N.lor (N.shiftl d0 18) (N.shiftl d1 12)) (N.lor (N.shiftl d2 6) d3).

(** ** The library functions on examples *)

Example Error_ex :
  Error (ErrHashLength "" "t6" 6 0)
  = "Value  is not valid for hash type t6; should be 6 bytes, was 0".
Proof. reflexivity. Qed.

Example fields_ex :
  strings.Fields (String (chr 10) "sha256-abc  x-y" +:+ String (chr 9) "z ")
  = ["sha256-abc"; "x-y"; "z"].
Proof. reflexivity. Qed.

(** U+00A0 and U+2003 separate fields; a lone [0xA0] byte does not. *)
Example fields_unicode :
  strings.Fields
    ("a" +:+ String (chr 194) (String (chr 160) "b")
     +:+ String (chr 226) (String (chr 128) (String (chr 131) "c"))
     +:+ String (chr 160) "d")
  = ["a"; "b"; "c" +:+ String (chr 160) "d"].
Proof. reflexivity. Qed.

Example b64_decode_padded :
  base64.DecodeString "aGVsbG8=" = (bytes_of_string "hello", None).
Proof. reflexivity. Qed.

Example b64_decode_unpadded :
  base64.DecodeString "aGVsbG8" = (bytes_of_string "hel", Some 4).
Proof. vm_compute. reflexivity. Qed.

Example b64_decode_garbage :
  base64.DecodeString "QQ==x" = (bytes_of_string "A", Some 4).
Proof. vm_compute. reflexivity. Qed.

Example b64_encode :
  base64.EncodeToString (bytes_of_string "hello") = "aGVsbG8=".
Proof. reflexivity. Qed.

(** The toy checker accepts ["ab"] written in two slices and rejects
    ["abc"], naming the two algorithms that fail. *)
Example toy_check_ok :
  match WriteAll toyState.1 toyState.2 toyWrites with
  | Some hp => Check hp toyState.2 = Some None
  | None => False
  end.
Proof. vm_compute. reflexivity. Qed.

Example toy_check_fails :
  match WriteAll toyState.1 toyState.2 [bytes_of_string "abc"] with
  | Some hp =>
      Error <$> default None (Check hp toyState.2)
      = Some ("subresource integrity failed: " +:+
              "violated t3 integrity check; was JiYm, expected one of " +:+
              "[w8PD, AAAA] (a.k.a. was 262626, expected one of " +:+
              "[c3c3c3, 000000]); " +:+
              "violated t6 integrity check; was JiYmJiYm, expected " +:+
              "w8PDw8PD (a.k.a. was 262626262626, expected c3c3c3c3c3c3)")
  | None => False
  end.
Proof. vm_compute. reflexivity. Qed.

(** ** Strings: the separator and the slices *)

Lemma append_String (c : ascii) (s t : string) :
  String c s +:+ t = String c (s +:+ t).
Proof. reflexivity. Qed.

Lemma append_empty (t : string) : "" +:+ t = t.
Proof. reflexivity. Qed.

Lemma length_append (s t : string) :
  String.length (s +:+ t) = String.length s + String.length t.
Proof.
  induction s as [|c s IH]; rewrite ?append_String, ?append_empty; simpl;
    [reflexivity | now rewrite IH].
Qed.

Lemma substring_all (s : string) : substring 0 (String.length s) s = s.
Proof. induction s as [|c s IH]; simpl; [reflexivity | now rewrite IH]. Qed.

Lemma IndexByte_range (s : string) (c : ascii) :
  strings.IndexByte s c = (-1)%Z \/
  (0 <= strings.IndexByte s c < Z.of_nat (String.length s))%Z.
Proof.
  induction s as [|d s IH]; simpl; [now left |].
  destruct (Ascii.eqb d c); [right; lia |].
  destruct IH as [-> | IH]; [now left |].
  destruct (Z.eqb_spec (strings.IndexByte s c) (-1)); [lia |]. right. lia.
Qed.

(** A token [name-value] whose name has no ['-'] splits into its name
    and value. *)
Lemma splitField_app (name value : string) :
  strings.IndexByte name "-"%char = (-1)%Z ->
  splitField (name +:+ String "-"%char value) = Some (name, value).
Proof.
  unfold splitField, strings.IndexRune, strings.slice_to, strings.slice_from.
  induction name as [|c name IH];
    rewrite ?append_String, ?append_empty; simpl.
  - intros _. rewrite Nat.sub_0_r, substring_all. reflexivity.
  - destruct (Ascii.eqb c "-"%char) eqn:Hc; [discriminate |].
    destruct (Z.eqb_spec (strings.IndexByte name "-"%char) (-1)) as [Hi | Hi].
    2:{ intros Hn. pose proof (IndexByte_range name "-"%char). lia. }
    intros _. specialize (IH Hi). revert IH.
    pose proof (IndexByte_range (name +:+ String "-"%char value) "-"%char)
      as Hr. revert Hr.
    generalize (strings.IndexByte (name +:+ String "-"%char value) "-"%char).
    intros i Hr.
    destruct (Z.eqb_spec i (-1)) as [He | He]; [discriminate |].
    destruct Hr as [Hr | Hr]; [contradiction |].
    destruct (Z.eqb_spec (i + 1) (-1)) as [He' | He']; [lia |].
    intros [= IH1 IH2].
    replace (Z.to_nat (i + 1)) with (S (Z.to_nat i)) by lia.
    replace (Z.to_nat (i + 1 + 1)) with (S (Z.to_nat (i + 1))) by lia.
    simpl. rewrite IH1, IH2. reflexivity.
Qed.

(** Conversely a split token is its name, the separator and its value. *)
Lemma splitField_inv (field name value : string) :
  splitField field = Some (name, value) ->
  field = name +:+ String "-"%char value /\
  strings.IndexByte name "-"%char = (-1)%Z.
Proof.
  unfold splitField, strings.IndexRune, strings.slice_to, strings.slice_from.
  revert name value.
  induction field as [|c field IH]; simpl; intros name value; [discriminate |].
  destruct (Ascii.eqb_spec c "-"%char) as [-> | Hc].
  - simpl. rewrite Nat.sub_0_r, substring_all.
    intros [= <- <-]. split; reflexivity.
  - pose proof (IndexByte_range field "-"%char) as Hr.
    revert IH Hr. generalize (strings.IndexByte field "-"%char). intros i.
    destruct (Z.eqb_spec i (-1)) as [He | He]; [discriminate |].
    intros IH Hr.
    destruct Hr as [Hr | Hr]; [contradiction |].
    destruct (Z.eqb_spec (i + 1) (-1)) as [He' | He']; [lia |].
    specialize (IH _ _ eq_refl) as [IH1 IH2].
    replace (Z.to_nat (i + 1)) with (S (Z.to_nat i)) by lia.
    replace (Z.to_nat (i + 1 + 1)) with (S (Z.to_nat (i + 1))) by lia.
    simpl. intros [= <- <-]. split.
    + rewrite append_String. f_equal. exact IH1.
    + simpl. destruct (Ascii.eqb_spec c "-"%char); [contradiction |].
      rewrite IH2. reflexivity.
Qed.

(** A token that starts with the separator has the empty name. *)
Lemma splitField_dash (rest : string) :
  splitField (String "-"%char rest) = Some ("", rest).
Proof. apply (splitField_app "" rest). reflexivity. Qed.

(** ** Tokens, names and values *)

Lemma firstError_app (table : gmap string HashFunc) (a b : list string) :
  firstError table (a ++ b) =
  match firstError table a with
  | Some e => Some e
  | None => firstError table b
  end.
Proof.
  induction a as [|t a IH]; simpl; [reflexivity |].
  destruct (tokenError table t); [reflexivity | exact IH].
Qed.

Lemma firstError_None (table : gmap string HashFunc) (toks : list string) :
  firstError table toks = None <->
  Forall (fun t => tokenError table t = None) toks.
Proof.
  induction toks as [|t toks IH]; simpl.
  - split; [constructor | reflexivity].
  - destruct (tokenError table t) eqn:Ht.
    + split; [discriminate |]. intros H. inversion H; subst. congruence.
    + rewrite IH. split.
      * intros H. constructor; assumption.
      * intros H. inversion H; assumption.
Qed.

Lemma fieldNames_snoc (toks : list string) (field name value : string) :
  splitField field = Some (name, value) ->
  fieldNames (toks ++ [field]) = fieldNames toks ++ [name].
Proof.
  intros Hs. unfold fieldNames. rewrite omap_app, fmap_app. simpl.
  rewrite Hs. reflexivity.
Qed.

Lemma valuesFor_snoc (n : string) (toks : list string)
    (field name value : string) :
  splitField field = Some (name, value) ->
  valuesFor n (toks ++ [field]) =
  valuesFor n toks ++ (if decide (name = n) then [value] else []).
Proof.
  intros Hs. unfold valuesFor. rewrite omap_app, filter_app, fmap_app.
  f_equal. simpl. rewrite Hs. simpl.
  rewrite filter_cons, filter_nil. simpl.
  destruct (decide (name = n)); reflexivity.
Qed.

Lemma valuesFor_notin (n : string) (toks : list string) :
  n ∉ fieldNames toks -> valuesFor n toks = [].
Proof.
  unfold fieldNames, valuesFor.
  induction (omap splitField toks) as [|[k v] l IH]; simpl; intros Hn;
    [reflexivity |].
  rewrite filter_cons. simpl.
  destruct (decide (k = n)) as [-> | Hk].
  - exfalso. apply Hn. left.
  - apply IH. intros Hin. apply Hn. right. exact Hin.
Qed.

(** Every value recorded for a name comes from a token of that name. *)
Lemma valuesFor_elem (n v : string) (toks : list string) :
  v ∈ valuesFor n toks ->
  exists t, t ∈ toks /\ splitField t = Some (n, v).
Proof.
  unfold valuesFor. intros Hv.
  apply list_elem_of_fmap in Hv as [[k v'] [-> Hin]].
  apply list_elem_of_filter in Hin as [Hk Hin]. simpl in Hk. subst k.
  apply list_elem_of_omap in Hin as [t [Ht Hs]].
  exists t. split; assumption.
Qed.

(** ** One token *)

Lemma validateHash_spec (hp : heap) (h : addr) (hh : hash.Hash)
    (name value : string) :
  hp !! h = Some hh ->
  validateHash hp h name value =
  match valueError (hash.Size hh) name value with
  | Some e => Err e
  | None => Ok tt
  end.
Proof.
  intros Hh. unfold validateHash, valueError.
  destruct (base64.DecodeString value) as [decoded [e|]]; [reflexivity |].
  rewrite Hh. destruct (decide (length decoded ≠ hash.Size hh)); reflexivity.
Qed.

(** A repeated name: the value is validated against the size of the
    accumulator already in the store, the store is left as it is and no
    accumulator is returned. *)
Lemma addHash_present (hp : heap) (c : Checker) (h : addr) (hh : hash.Hash)
    (name value : string) (table : gmap string HashFunc) :
  hashes c !! name = Some h ->
  hp !! h = Some hh ->
  addHash hp c name value table =
  match valueError (hash.Size hh) name value with
  | Some e => Err e
  | None =>
      Ok (hp,
          mkChecker (<[name := expected_at c name ++ [value]]> (expected c))
                    (hashes c) (w c),
          None)
  end.
Proof.
  intros Hc Hh. unfold addHash. rewrite Hc.
  rewrite (validateHash_spec _ _ _ _ _ Hh).
  destruct (valueError (hash.Size hh) name value); reflexivity.
Qed.

(** A new name: unknown names are refused, otherwise a fresh accumulator
    is allocated and the value validated against its size. *)
Lemma addHash_absent (hp : heap) (c : Checker) (name value : string)
    (table : gmap string HashFunc) :
  hashes c !! name = None ->
  addHash hp c name value table =
  match table !! name with
  | None => Err (ErrUnknownHash name)
  | Some f =>
      match valueError (hashSize f) name value with
      | Some e => Err e
      | None =>
          Ok (hp ++ [newHash f],
              mkChecker (<[name := [value]]> (expected c))
                        (<[name := length hp]> (hashes c)) (w c),
              Some (length hp))
      end
  end.
Proof.
  intros Hc. unfold addHash. rewrite Hc.
  destruct (table !! name) as [f|]; [| reflexivity].
  unfold alloc. cbv beta iota zeta.
  rewrite (validateHash_spec _ _ (newHash f)).
  - simpl. destruct (valueError (hashSize f) name value); reflexivity.
  - rewrite lookup_app_r by lia. rewrite Nat.sub_diag. reflexivity.
Qed.

(** ** The loop invariant *)

Lemma wf_state_init (hp0 : heap) (table : gmap string HashFunc) :
  wf_state hp0 table [] [] hp0 (mkChecker ∅ ∅ None) [].
Proof.
  split; simpl.
  - exists []. rewrite app_nil_r. split; reflexivity.
  - reflexivity.
  - intros name a H. rewrite lookup_empty in H. discriminate.
  - intros n1 n2 a H. rewrite lookup_empty in H. discriminate.
  - intros name. rewrite lookup_empty. split.
    + intros [x Hx]. discriminate.
    + intros H. inversion H.
  - intros name. rewrite lookup_empty. split.
    + intros [x Hx]. discriminate.
    + intros H. inversion H.
  - intros name. unfold expected_at. simpl. rewrite lookup_empty. reflexivity.
  - reflexivity.
Qed.

(** [addHash] on one more token: it fails with the defect of the token,
    or accepts it and keeps the invariant. *)
Lemma addHash_step (hp0 : heap) (table : gmap string HashFunc)
    (toks : list string) (hp : heap) (c : Checker) (writers : list addr)
    (field name value : string) :
  wf_state hp0 table toks [] hp c writers ->
  splitField field = Some (name, value) ->
  match tokenError table field with
  | Some e => addHash hp c name value table = Err e
  | None =>
      exists hp' c' h,
        addHash hp c name value table = Ok (hp', c', h) /\
        w c' = w c /\
        wf_state hp0 table (toks ++ [field]) [] hp' c'
          (match h with Some a => writers ++ [a] | None => writers end)
  end.
Proof.
  intros Hwf Hs. unfold tokenError. rewrite Hs.
  destruct Hwf as [Hcells Hsize Hhashes Hinj Hnames Hedom Hexp Hvalid].
  assert (Hvalid' : forall f, table !! name = Some f ->
            valueError (hashSize f) name value = None ->
            firstError table (toks ++ [field]) = None).
  { intros f Hf Hv. rewrite firstError_app, Hvalid. simpl.
    unfold tokenError. rewrite Hs, Hf, Hv. reflexivity. }
  destruct (hashes c !! name) as [a|] eqn:Hc.
  - (* a repeated name *)
    destruct (Hhashes _ _ Hc) as [Hle [f [Hf Ha]]].
    rewrite Hf. rewrite (addHash_present _ _ _ _ _ _ _ Hc Ha). simpl.
    destruct (valueError (hashSize f) name value) eqn:Hv; [reflexivity |].
    eexists _, _, _. split; [reflexivity |]. split; [reflexivity |].
    assert (Hin : name ∈ fieldNames toks).
    { apply Hnames. rewrite Hc. eexists; reflexivity. }
    split; simpl.
    + exact Hcells.
    + exact Hsize.
    + exact Hhashes.
    + exact Hinj.
    + intros n. rewrite (fieldNames_snoc _ _ _ _ Hs), elem_of_app, Hnames.
      rewrite list_elem_of_singleton. split; [tauto |].
      intros [H | ->]; [exact H | exact Hin].
    + intros n. rewrite (fieldNames_snoc _ _ _ _ Hs), elem_of_app.
      rewrite list_elem_of_singleton.
      destruct (decide (name = n)) as [<- | Hne].
      * rewrite lookup_insert_eq. split; [intros _; now right | eauto].
      * rewrite lookup_insert_ne by exact Hne. rewrite Hedom.
        split; [tauto |]. intros [H | ->]; [exact H | contradiction].
    + intros n. rewrite (valuesFor_snoc _ _ _ _ _ Hs). unfold expected_at.
      simpl. destruct (decide (name = n)) as [<- | Hne].
      * rewrite lookup_insert_eq. simpl. rewrite <- Hexp. reflexivity.
      * rewrite lookup_insert_ne by exact Hne. rewrite app_nil_r.
        apply Hexp.
    + eapply Hvalid'; eassumption.
  - (* a new name *)
    rewrite (addHash_absent _ _ _ _ _ Hc).
    destruct (table !! name) as [f|] eqn:Hf; [| reflexivity].
    destruct (valueError (hashSize f) name value) eqn:Hv; [reflexivity |].
    eexists _, _, _. split; [reflexivity |]. split; [reflexivity |].
    assert (Hnotin : name ∉ fieldNames toks).
    { intros Hin. apply Hnames in Hin as [x Hx]. congruence. }
    destruct Hcells as [cells [Hhp Hw]].
    split; simpl.
    + exists (cells ++ [newHash f]). split.
      * rewrite Hhp, <- app_assoc. reflexivity.
      * rewrite length_app. simpl. rewrite seq_app. simpl.
        rewrite Hw, Hhp, length_app. reflexivity.
    + rewrite map_size_insert_None by exact Hc.
      rewrite length_app. simpl. lia.
    + intros n a. destruct (decide (name = n)) as [<- | Hne].
      * rewrite lookup_insert_eq. intros [= <-]. split.
        { rewrite Hhp, length_app. lia. }
        exists f. split; [exact Hf |].
        rewrite lookup_app_r by lia. rewrite Nat.sub_diag. reflexivity.
      * rewrite lookup_insert_ne by exact Hne. intros Hn.
        destruct (Hhashes _ _ Hn) as [Hle [g [Hg Ha]]].
        split; [exact Hle |]. exists g. split; [exact Hg |].
        rewrite lookup_app_l; [exact Ha |].
        apply lookup_lt_Some in Ha. exact Ha.
    + assert (Hfresh : forall n a, hashes c !! n = Some a -> a <> length hp).
      { intros n a Hn. destruct (Hhashes _ _ Hn) as [_ [g [_ Ha]]].
        apply lookup_lt_Some in Ha. lia. }
      intros n1 n2 a.
      destruct (decide (name = n1)) as [<- | H1];
        destruct (decide (name = n2)) as [<- | H2];
        rewrite ?lookup_insert_eq, ?lookup_insert_ne by assumption.
      * reflexivity.
      * intros [= <-] Hn. exfalso. eapply Hfresh; [exact Hn | reflexivity].
      * intros Hn [= <-]. exfalso. eapply Hfresh; [exact Hn | reflexivity].
      * apply Hinj.
    + intros n. rewrite (fieldNames_snoc _ _ _ _ Hs), elem_of_app.
      rewrite list_elem_of_singleton.
      destruct (decide (name = n)) as [<- | Hne].
      * rewrite lookup_insert_eq. split; [intros _; now right | eauto].
      * rewrite lookup_insert_ne by exact Hne. rewrite Hnames.
        split; [tauto |]. intros [H | ->]; [exact H | contradiction].
    + intros n. rewrite (fieldNames_snoc _ _ _ _ Hs), elem_of_app.
      rewrite list_elem_of_singleton.
      destruct (decide (name = n)) as [<- | Hne].
      * rewrite lookup_insert_eq. split; [intros _; now right | eauto].
      * rewrite lookup_insert_ne by exact Hne. rewrite Hedom.
        split; [tauto |]. intros [H | ->]; [exact H | contradiction].
    + intros n. rewrite (valuesFor_snoc _ _ _ _ _ Hs). unfold expected_at.
      simpl. destruct (decide (name = n)) as [<- | Hne].
      * rewrite lookup_insert_eq. simpl.
        rewrite (valuesFor_notin _ _ Hnotin). reflexivity.
      * rewrite lookup_insert_ne by exact Hne. rewrite app_nil_r.
        apply Hexp.
    + apply (Hvalid' f); [first [exact Hf | reflexivity] | exact Hv].
Qed.

(** ** The whole descriptor *)

Lemma fieldsLoop_cons (field : string) (rest : list string) (hp : heap)
    (c : Checker) (writers : list addr) (table : gmap string HashFunc) :
  fieldsLoop (field :: rest) hp c writers table =
  match splitField field with
  | None => Err (ErrSubstring field)
  | Some (name, value) =>
      bind (addHash hp c name value table)
        (fun '(hp', c', h) =>
           fieldsLoop rest hp' c'
             (match h with Some a => writers ++ [a] | None => writers end)
             table)
  end.
Proof.
  unfold splitField. simpl.
  destruct (strings.IndexRune field "-"%char =? -1)%Z; reflexivity.
Qed.

(** The loop fails with the defect of the first defective token, and
    otherwise accepts all tokens. *)
Lemma fieldsLoop_spec (table : gmap string HashFunc) (hp0 : heap)
    (fields toks : list string) (hp : heap) (c : Checker)
    (writers : list addr) :
  wf_state hp0 table toks [] hp c writers ->
  match firstError table fields with
  | Some e => fieldsLoop fields hp c writers table = Err e
  | None =>
      exists hp' c' writers',
        fieldsLoop fields hp c writers table = Ok (hp', c', writers') /\
        w c' = w c /\
        wf_state hp0 table (toks ++ fields) [] hp' c' writers'
  end.
Proof.
  revert toks hp c writers.
  induction fields as [|field rest IH]; intros toks hp c writers Hwf.
  - simpl. exists hp, c, writers. rewrite app_nil_r. auto.
  - rewrite fieldsLoop_cons. simpl.
    destruct (splitField field) as [[name value]|] eqn:Hs.
    + pose proof (addHash_step _ _ _ _ _ _ _ _ _ Hwf Hs) as Hstep.
      destruct (tokenError table field) as [e|].
      * rewrite Hstep. reflexivity.
      * destruct Hstep as [hp' [c' [h [-> [Hw Hwf']]]]]. simpl.
        specialize (IH _ _ _ _ Hwf').
        destruct (firstError table rest) as [e|]; [exact IH |].
        destruct IH as [hp2 [c2 [w2 [-> [Hw2 Hwf2]]]]].
        exists hp2, c2, w2. split; [reflexivity |].
        split; [congruence |].
        rewrite <- app_assoc in Hwf2. exact Hwf2.
    + unfold tokenError. rewrite Hs. reflexivity.
Qed.

Lemma writerOf_cases (hp : heap) (c : Checker) (writers : list addr)
    (sri : string) :
  match writers with
  | [] => Err (ErrEmpty sri)
  | [w0] =>
      Ok (hp, mkChecker (expected c) (hashes c) (Some (io.HashWriter w0)))
  | _ =>
      Ok (hp, mkChecker (expected c) (hashes c)
                (Some (io.MultiWriter writers)))
  end =
  match writerOf writers with
  | None => Err (ErrEmpty sri)
  | Some wr => Ok (hp, mkChecker (expected c) (hashes c) (Some wr))
  end.
Proof. destruct writers as [|w0 [|w1 ws]]; reflexivity. Qed.

(** No writer was registered exactly when no token was accepted. *)
Lemma wf_state_writers_nil (hp0 : heap) (table : gmap string HashFunc)
    (toks : list string) (hp : heap) (c : Checker) (writers : list addr) :
  wf_state hp0 table toks [] hp c writers ->
  writers = [] <-> toks = [].
Proof.
  intros Hwf. split.
  - intros ->. destruct toks as [|t toks]; [reflexivity |]. exfalso.
    pose proof (wf_valid _ _ _ _ _ _ _ Hwf) as Hv. simpl in Hv.
    destruct (tokenError table t) eqn:Ht; [discriminate |].
    unfold tokenError in Ht.
    destruct (splitField t) as [[name value]|] eqn:Hs; [| discriminate].
    assert (Hin : name ∈ fieldNames (t :: toks)).
    { unfold fieldNames. simpl. rewrite Hs. left. }
    apply (wf_names _ _ _ _ _ _ _ Hwf) in Hin as [a Ha].
    pose proof (wf_size _ _ _ _ _ _ _ Hwf) as Hsz. simpl in Hsz.
    apply map_size_empty_inv in Hsz. rewrite Hsz, lookup_empty in Ha.
    discriminate.
  - intros ->. pose proof (wf_size _ _ _ _ _ _ _ Hwf) as Hsz.
    assert (He : hashes c = ∅).
    { apply map_eq. intros n. rewrite lookup_empty.
      destruct (hashes c !! n) eqn:Hn; [| reflexivity].
      assert (His : is_Some (hashes c !! n)) by eauto.
      apply (wf_names _ _ _ _ _ _ _ Hwf) in His. inversion His. }
    rewrite He, map_size_empty in Hsz.
    destruct writers; [reflexivity | discriminate].
Qed.

(** What [NewCheckerForHashes] returns: the error of the descriptor, or a
    constructed [Checker]. *)
Lemma NewCheckerForHashes_spec (hp0 : heap) (sri : string)
    (table : gmap string HashFunc) :
  match parseError table sri with
  | Some e => NewCheckerForHashes hp0 sri table = Err e
  | None =>
      exists hp c,
        NewCheckerForHashes hp0 sri table = Ok (hp, c) /\
        built hp0 table (strings.Fields sri) [] hp c
  end.
Proof.
  unfold NewCheckerForHashes, parseError.
  pose proof (fieldsLoop_spec table hp0 (strings.Fields sri) [] hp0 _ []
                (wf_state_init hp0 table)) as Hloop.
  destruct (firstError table (strings.Fields sri)) as [e|].
  - rewrite Hloop. reflexivity.
  - destruct Hloop as [hp [c [writers [-> [Hw Hwf]]]]]. simpl in Hwf |- *.
    rewrite writerOf_cases.
    pose proof (wf_state_writers_nil _ _ _ _ _ _ Hwf) as Hnil.
    destruct (strings.Fields sri) as [|t toks] eqn:Hf.
    + rewrite (proj2 Hnil eq_refl). reflexivity.
    + assert (Hne : writers <> []).
      { intros Hn. apply Hnil in Hn. discriminate. }
      destruct (writerOf writers) as [wr|] eqn:Hwr.
      * eexists _, _. split; [reflexivity |].
        exists writers. split; [| split; [exact Hne | simpl; congruence]].
        destruct Hwf. split; simpl; assumption.
      * destruct writers as [|? [|? ?]]; [contradiction | discriminate ..].
Qed.

(** ** Writing *)

Lemma hashWrite_feed (hp : heap) (a : addr) (h : hash.Hash) (p : list byte) :
  hp !! a = Some h ->
  hashWrite hp a p = Some (<[a := feed p h]> hp, (length p, None)).
Proof. intros Ha. unfold hashWrite. rewrite Ha. reflexivity. Qed.

(** The fan-out over the accumulators [cells] that follow [pre] in the
    store feeds each of them once and reports no error. *)
Lemma multiWrite_seq (cells pre : heap) (p : list byte) :
  io.multiWrite (pre ++ cells) (seq (length pre) (length cells)) p =
  Some (pre ++ (feed p <$> cells), (length p, None)).
Proof.
  revert pre. induction cells as [|h cells IH]; intros pre; simpl.
  - reflexivity.
  - rewrite (hashWrite_feed _ _ h).
    2:{ rewrite lookup_app_r by lia. rewrite Nat.sub_diag. reflexivity. }
    destruct (decide (length p ≠ length p)) as [Hne | _]; [contradiction |].
    replace (<[length pre := feed p h]> (pre ++ h :: cells))
      with ((pre ++ [feed p h]) ++ cells).
    2:{ rewrite insert_app_r_alt by lia. rewrite Nat.sub_diag. simpl.
        rewrite <- app_assoc. reflexivity. }
    replace (S (length pre)) with (length (pre ++ [feed p h]))
      by (rewrite length_app; simpl; lia).
    rewrite IH. rewrite <- app_assoc. reflexivity.
Qed.

Lemma accum_feed (f : HashFunc) (data p : list byte) :
  feed p (accum f data) = accum f (data ++ p).
Proof. reflexivity. Qed.

(** [Write] on a constructed [Checker] feeds every accumulator and
    returns [len(b), nil]. *)
Lemma Write_built (hp0 : heap) (table : gmap string HashFunc)
    (toks : list string) (data : list byte) (hp : heap) (c : Checker)
    (b : list byte) :
  built hp0 table toks data hp c ->
  exists hp',
    Write hp c b = Some (hp', (length b, None)) /\
    built hp0 table toks (data ++ b) hp' c.
Proof.
  intros [writers [Hwf [Hne Hw]]].
  destruct Hwf as [[cells [Hhp Hws]] Hsize Hhashes Hinj Hnames Hedom Hexp Hv].
  exists (hp0 ++ (feed b <$> cells)). split.
  - unfold Write. rewrite Hw.
    pose proof (multiWrite_seq cells hp0 b) as Hm.
    rewrite <- Hhp, <- Hws in Hm.
    destruct writers as [|w0 [|w1 ws]]; [contradiction | | exact Hm].
    simpl in Hm |- *.
    destruct (hashWrite hp w0 b) as [[hp1 [n [e|]]]|]; try discriminate.
    destruct (decide (n ≠ length b)); [discriminate |].
    assert (n = length b) as ->.
    { destruct (decide (n = length b)); [assumption | contradiction]. }
    exact Hm.
  - exists writers. split; [| split; assumption].
    split.
    + exists (feed b <$> cells). split; [reflexivity |].
      rewrite length_fmap. exact Hws.
    + exact Hsize.
    + intros name a Ha. destruct (Hhashes _ _ Ha) as [Hle [f [Hf Hl]]].
      split; [exact Hle |]. exists f. split; [exact Hf |].
      rewrite Hhp in Hl. rewrite lookup_app_r in Hl by exact Hle.
      rewrite lookup_app_r by exact Hle.
      rewrite list_lookup_fmap, Hl. reflexivity.
    + exact Hinj.
    + exact Hnames.
    + exact Hedom.
    + exact Hexp.
    + exact Hv.
Qed.

Lemma WriteAll_built (hp0 : heap) (table : gmap string HashFunc)
    (toks : list string) (bs : list (list byte)) (data : list byte)
    (hp : heap) (c : Checker) :
  built hp0 table toks data hp c ->
  exists hp',
    WriteAll hp c bs = Some hp' /\
    built hp0 table toks (data ++ concat bs) hp' c.
Proof.
  revert data hp. induction bs as [|b bs IH]; intros data hp Hb; simpl.
  - exists hp. rewrite app_nil_r. auto.
  - destruct (Write_built _ _ _ _ _ _ b Hb) as [hp1 [-> Hb1]].
    destruct (IH _ _ Hb1) as [hp2 [-> Hb2]].
    exists hp2. split; [reflexivity |]. rewrite app_assoc. exact Hb2.
Qed.

Lemma NewCheckerForHashes_built (hp0 : heap) (sri : string)
    (table : gmap string HashFunc) (hp : heap) (c : Checker) :
  NewCheckerForHashes hp0 sri table = Ok (hp, c) ->
  parseError table sri = None /\
  built hp0 table (strings.Fields sri) [] hp c.
Proof.
  intros Hok. pose proof (NewCheckerForHashes_spec hp0 sri table) as Hs.
  destruct (parseError table sri) as [e|].
  - rewrite Hs in Hok. discriminate.
  - destruct Hs as [hp2 [c2 [Heq Hb]]]. rewrite Heq in Hok.
    injection Hok as <- <-. auto.
Qed.

(** ** Checking *)

Lemma contains_elem_of (haystack : list string) (needle : string) :
  contains haystack needle = true <-> needle ∈ haystack.
Proof.
  induction haystack as [|straw rest IH]; simpl.
  - split; [discriminate | intros H; inversion H].
  - rewrite elem_of_cons. destruct (String.eqb_spec straw needle) as [-> | Hne].
    + split; auto.
    + rewrite IH. split; [auto |]. intros [-> | H]; [contradiction | exact H].
Qed.

(** One iteration of [Check] on a constructed [Checker]: no message is
    added exactly when the digest of the data is among the expected
    values of [name]. *)
Lemma checkHash_built (hp0 : heap) (table : gmap string HashFunc)
    (toks : list string) (data : list byte) (hp : heap) (c : Checker)
    (name : string) (a : addr) :
  built hp0 table toks data hp c ->
  hashes c !! name = Some a ->
  exists f m,
    table !! name = Some f /\
    checkHash hp c name a = Some m /\
    (m = [] <->
     base64.EncodeToString (hashDigest f data) ∈ Expected c name).
Proof.
  intros [writers [Hwf _]] Ha.
  destruct (wf_hashes _ _ _ _ _ _ _ Hwf _ _ Ha) as [_ [f [Hf Hl]]].
  exists f. unfold checkHash. rewrite Hl. unfold hash.Sum. simpl.
  unfold Expected.
  destruct (contains (expected_at c name)
              (base64.EncodeToString (hashDigest f data))) eqn:Hc; simpl.
  - exists []. split; [exact Hf |]. split; [reflexivity |].
    apply contains_elem_of in Hc. tauto.
  - eexists. split; [exact Hf |]. split; [reflexivity |].
    split; [discriminate |]. intros Hin.
    apply contains_elem_of in Hin. congruence.
Qed.

Lemma checkMsgs_built (hp0 : heap) (table : gmap string HashFunc)
    (toks : list string) (data : list byte) (hp : heap) (c : Checker)
    (order : list (string * addr)) (msgs : list string) :
  built hp0 table toks data hp c ->
  (forall name a, (name, a) ∈ order -> hashes c !! name = Some a) ->
  exists out,
    checkMsgs hp c order msgs = Some out /\
    (out = [] <->
     msgs = [] /\
     forall name a, (name, a) ∈ order ->
       exists f, table !! name = Some f /\
         base64.EncodeToString (hashDigest f data) ∈ Expected c name).
Proof.
  intros Hb. revert msgs.
  induction order as [|[name a] order IH]; intros msgs Hall; simpl.
  - exists msgs. split; [reflexivity |]. split.
    + intros ->. split; [reflexivity |]. intros n b H. inversion H.
    + tauto.
  - assert (Ha : hashes c !! name = Some a) by (apply Hall; left).
    destruct (checkHash_built _ _ _ _ _ _ _ _ Hb Ha) as [f [m [Hf [-> Hm]]]].
    destruct (IH (msgs ++ m)) as [out [-> Hout]].
    { intros n b Hin. apply Hall. right. exact Hin. }
    exists out. split; [reflexivity |]. rewrite Hout. split.
    + intros [Happ Hrest]. apply app_eq_nil in Happ as [-> ->].
      split; [reflexivity |]. intros n b Hin.
      apply elem_of_cons in Hin as [[= -> ->] | Hin].
      * exists f. split; [exact Hf |]. apply Hm. reflexivity.
      * eapply Hrest. exact Hin.
    + intros [-> Hall2]. split.
      * destruct (Hall2 name a) as [g [Hg Hin]]; [left |].
        assert (g = f) as -> by congruence.
        apply Hm in Hin. subst m. reflexivity.
      * intros n b Hin. apply (Hall2 n b). right. exact Hin.
Qed.

(** [Check], for any iteration order of the map, returns nil exactly when
    every registered algorithm has its digest among its expected
    values. *)
Lemma CheckIn_built (hp0 : heap) (table : gmap string HashFunc)
    (toks : list string) (data : list byte) (hp : heap) (c : Checker)
    (order : list (string * addr)) :
  built hp0 table toks data hp c ->
  order ≡ₚ map_to_list (hashes c) ->
  exists r,
    CheckIn order hp c = Some r /\
    (r = None <->
     forall name a, hashes c !! name = Some a ->
       exists f, table !! name = Some f /\
         base64.EncodeToString (hashDigest f data) ∈ Expected c name).
Proof.
  intros Hb Hperm.
  assert (Hin : forall name a,
             (name, a) ∈ order <-> hashes c !! name = Some a).
  { intros name a. rewrite Hperm. apply elem_of_map_to_list. }
  destruct (checkMsgs_built _ _ _ _ _ _ order [] Hb) as [out [Hout Hiff]].
  { intros name a. apply Hin. }
  unfold CheckIn. rewrite Hout.
  destruct (decide (length out ≠ 0)) as [Hne | He].
  - eexists. split; [reflexivity |]. split; [discriminate |].
    intros Hall. exfalso. apply Hne.
    assert (out = []) as ->; [| reflexivity].
    apply Hiff. split; [reflexivity |].
    intros name a Hi. apply (Hall name a). apply Hin. exact Hi.
  - exists None. split; [reflexivity |]. split; [| reflexivity].
    intros _ name a Ha.
    assert (out = []) as Hnil.
    { destruct out; [reflexivity | exfalso; apply He; discriminate]. }
    apply Hiff in Hnil as [_ Hall]. apply (Hall name a). apply Hin. exact Ha.
Qed.

(** ** White space *)

Lemma fieldsFrom_skip (u s : string) (cur : option string) :
  strings.fieldsFrom (String.length u) cur (u +:+ s) =
  strings.fieldsFrom 0 cur s.
Proof.
  induction u as [|c u IH]; rewrite ?append_String, ?append_empty; simpl.
  - destruct s; reflexivity.
  - exact IH.
Qed.

(** [spaceWidth] only looks at the bytes of the rune it recognises. *)
Lemma spaceWidth_prefix (r s : string) :
  strings.spaceWidth r = String.length r -> r <> "" ->
  strings.spaceWidth (r +:+ s) = String.length r.
Proof.
  intros Hw Hne.
  destruct r as [|c [|d [|e r']]]; [contradiction | | |];
    rewrite ?append_String, ?append_empty;
    unfold strings.spaceWidth in *; cbn [String.length] in *.
  - destruct (strings.asciiSpace c); [reflexivity | discriminate].
  - destruct (strings.asciiSpace c); [discriminate |].
    destruct (ord c =? 194)%N; [| discriminate].
    exact Hw.
  - destruct (strings.asciiSpace c); [discriminate |].
    destruct (ord c =? 194)%N.
    + destruct ((ord d =? 133) || (ord d =? 160))%N; discriminate.
    + rewrite <- Hw.
      destruct r'; rewrite ?append_String, ?append_empty; cbv zeta;
        repeat match goal with
               | |- context [if ?b then _ else _] => destruct b
               end; try reflexivity; try discriminate.
      all: cbv zeta in Hw;
        repeat match type of Hw with
               | context [if ?b then _ else _] => destruct b
               end; discriminate.
Qed.

Lemma onlySpace_Fields (s : string) : onlySpace s -> strings.Fields s = [].
Proof.
  unfold strings.Fields. induction 1 as [|r s Hw Hne Hs IH]; [reflexivity |].
  pose proof (spaceWidth_prefix r s Hw Hne) as Hp.
  destruct r as [|c r]; [contradiction |].
  rewrite append_String in *. cbn [strings.fieldsFrom].
  rewrite Hp. cbn [String.length strings.flush app].
  rewrite fieldsFrom_skip. exact IH.
Qed.

(** ** Hex form *)

Lemma toHexFrom_map (es pre : list string) :
  toHexFrom (length pre) es (pre ++ replicate (length es) "") =
  pre ++ ((fun e => hex.EncodeToString (base64.DecodeString e).1) <$> es).
Proof.
  revert pre. induction es as [|e es IH]; intros pre; simpl.
  - reflexivity.
  - destruct (base64.DecodeString e) as [raw err] eqn:He. simpl.
    rewrite insert_app_r_alt by lia. rewrite Nat.sub_diag. simpl.
    replace (pre ++ hex.EncodeToString raw :: replicate (length es) "")
      with ((pre ++ [hex.EncodeToString raw]) ++ replicate (length es) "")
      by (rewrite <- app_assoc; reflexivity).
    replace (S (length pre)) with (length (pre ++ [hex.EncodeToString raw]))
      by (rewrite length_app; simpl; lia).
    rewrite IH, <- app_assoc. reflexivity.
Qed.

(** [toHex] is the element-wise decode-then-hex. *)
Lemma toHex_map (es : list string) :
  toHex es = (fun e => hex.EncodeToString (base64.DecodeString e).1) <$> es.
Proof. apply (toHexFrom_map es []). Qed.

(** Every value kept for a name passed validation for the algorithm of
    that name. *)
Lemma expected_valid (hp0 : heap) (table : gmap string HashFunc)
    (toks : list string) (data : list byte) (hp : heap) (c : Checker)
    (name v : string) :
  built hp0 table toks data hp c ->
  v ∈ Expected c name ->
  exists f raw,
    table !! name = Some f /\
    base64.DecodeString v = (raw, None) /\ length raw = hashSize f.
Proof.
  intros [writers [Hwf _]] Hv. unfold Expected in Hv.
  rewrite (wf_expected _ _ _ _ _ _ _ Hwf) in Hv.
  apply valuesFor_elem in Hv as [t [Ht Hs]].
  pose proof (wf_valid _ _ _ _ _ _ _ Hwf) as Hvalid.
  rewrite firstError_None, Forall_forall in Hvalid.
  specialize (Hvalid t Ht). unfold tokenError in Hvalid. rewrite Hs in Hvalid.
  destruct (table !! name) as [f|]; [| discriminate].
  unfold valueError in Hvalid.
  destruct (base64.DecodeString v) as [raw [e|]]; [discriminate |].
  destruct (decide (length raw ≠ hashSize f)) as [Hne | He]; [discriminate |].
  exists f, raw. split; [reflexivity |]. split; [reflexivity |].
  destruct (decide (length raw = hashSize f)); [assumption | contradiction].
Qed.

(** ** The verifier *)

(** C1.  Take a [Checker] built from a descriptor, any sequence [bs] of
    written slices and any iteration order of [c.hashes].  The writes and
    [Check] run without panic, and [Check] returns nil if and only if, for
    every algorithm registered in [c.hashes], the base64 encoding of that
    algorithm's digest of the concatenation of [bs] is one of the values
    [Expected] lists for it: any one listed value is enough for an
    algorithm, and every registered algorithm needs one. *)
Theorem Check_succeeds_iff (hp0 : heap) (sri : string)
    (table : gmap string HashFunc) (hp : heap) (c : Checker)
    (bs : list (list byte)) (order : list (string * addr)) :
  NewCheckerForHashes hp0 sri table = Ok (hp, c) ->
  order ≡ₚ map_to_list (hashes c) ->
  exists hp' r,
    WriteAll hp c bs = Some hp' /\
    CheckIn order hp' c = Some r /\
    (r = None <->
     forall name a, hashes c !! name = Some a ->
       exists f, table !! name = Some f /\
         base64.EncodeToString (hashDigest f (concat bs)) ∈ Expected c name).
Proof.
  intros Hok Hperm.
  apply NewCheckerForHashes_built in Hok as [_ Hb].
  destruct (WriteAll_built _ _ _ bs _ _ _ Hb) as [hp' [Hw Hb']].
  simpl in Hb'.
  destruct (CheckIn_built _ _ _ _ _ _ _ Hb' Hperm) as [r [Hr Hiff]].
  exists hp', r. auto.
Qed.

Lemma Check_succeeds_iff_witness :
  exists hp' r,
    WriteAll toyState.1 toyState.2 toyWrites = Some hp' /\
    CheckIn (map_to_list (hashes toyState.2)) hp' toyState.2 = Some r /\
    (r = None <->
     forall name a, hashes toyState.2 !! name = Some a ->
       exists f, toyTable !! name = Some f /\
         base64.EncodeToString (hashDigest f (concat toyWrites))
           ∈ Expected toyState.2 name).
Proof.
  apply (Check_succeeds_iff [] toySri toyTable toyState.1 toyState.2).
  - vm_compute. reflexivity.
  - reflexivity.
Defined.

(** C5.  On a [Checker] built from a descriptor, and after any earlier
    writes, [Write] does not panic and returns the full length of the
    slice and a nil error, whether [c.w] is a single accumulator or the
    fan-out over several. *)
Theorem Write_never_fails (hp0 : heap) (sri : string)
    (table : gmap string HashFunc) (hp : heap) (c : Checker)
    (bs : list (list byte)) (b : list byte) :
  NewCheckerForHashes hp0 sri table = Ok (hp, c) ->
  exists hp1 hp2,
    WriteAll hp c bs = Some hp1 /\
    Write hp1 c b = Some (hp2, (length b, None)).
Proof.
  intros Hok. apply NewCheckerForHashes_built in Hok as [_ Hb].
  destruct (WriteAll_built _ _ _ bs _ _ _ Hb) as [hp1 [Hw Hb1]].
  destruct (Write_built _ _ _ _ _ _ b Hb1) as [hp2 [Hw2 _]].
  exists hp1, hp2. auto.
Qed.

Lemma Write_never_fails_witness :
  exists hp1 hp2,
    WriteAll toyState.1 toyState.2 toyWrites = Some hp1 /\
    Write hp1 toyState.2 (bytes_of_string "c")
    = Some (hp2, (length (bytes_of_string "c"), None)).
Proof.
  apply (Write_never_fails [] toySri toyTable toyState.1 toyState.2).
  vm_compute. reflexivity.
Defined.

Lemma built_coindexed (hp0 : heap) (table : gmap string HashFunc)
    (toks : list string) (data : list byte) (hp : heap) (c : Checker) :
  built hp0 table toks data hp c -> coindexed hp0 hp c.
Proof.
  intros [writers [Hwf _]].
  destruct Hwf as [[cells [Hhp Hws]] Hsize Hhashes Hinj Hnames Hedom Hexp Hv].
  repeat split.
  - apply set_eq. intros n. rewrite !elem_of_dom, Hnames, Hedom. tauto.
  - rewrite Hsize, Hws, Hhp, length_seq, length_app. lia.
  - exact Hinj.
  - destruct (Hhashes _ _ H) as [Hle _]. exact Hle.
  - destruct (Hhashes _ _ H) as [_ [f [_ Hl]]]. eauto.
Qed.

(** C4.  After a successful parse the keys of [c.expected] are the keys
    of [c.hashes], namely the names the tokens of the descriptor mention;
    there are as many accumulators in the store as there are names, and
    distinct names have distinct accumulators, however many tokens
    mention a name.  Writing changes neither map and keeps every name on
    its accumulator; [Check] returns an error value only. *)
Theorem maps_coindexed (hp0 : heap) (sri : string)
    (table : gmap string HashFunc) (hp : heap) (c : Checker)
    (bs : list (list byte)) :
  NewCheckerForHashes hp0 sri table = Ok (hp, c) ->
  coindexed hp0 hp c /\
  dom (hashes c) = list_to_set (fieldNames (strings.Fields sri)) /\
  exists hp',
    WriteAll hp c bs = Some hp' /\ length hp' = length hp /\
    coindexed hp0 hp' c /\ is_Some (Check hp' c).
Proof.
  intros Hok. apply NewCheckerForHashes_built in Hok as [_ Hb].
  split; [eapply built_coindexed; exact Hb |]. split.
  - destruct Hb as [writers [Hwf _]]. apply set_eq. intros n.
    rewrite elem_of_dom, elem_of_list_to_set.
    apply (wf_names _ _ _ _ _ _ _ Hwf).
  - destruct (WriteAll_built _ _ _ bs _ _ _ Hb) as [hp' [Hw Hb']].
    exists hp'. split; [exact Hw |].
    pose proof (built_coindexed _ _ _ _ _ _ Hb) as [_ [Hs1 _]].
    pose proof (built_coindexed _ _ _ _ _ _ Hb') as Hco.
    split; [| split; [exact Hco |]].
    + destruct Hco as [_ [Hs2 _]].
      destruct Hb as [ws [[[cells [-> _]] _ _ _ _ _ _ _] _]].
      destruct Hb' as [ws' [[[cells' [-> _]] _ _ _ _ _ _ _] _]].
      rewrite !length_app in *. lia.
    + destruct (CheckIn_built _ _ _ _ _ _ (map_to_list (hashes c)) Hb')
        as [r [Hr _]]; [reflexivity |].
      unfold Check. rewrite Hr. eauto.
Qed.

Lemma maps_coindexed_witness :
  coindexed [] toyState.1 toyState.2 /\
  dom (hashes toyState.2) = list_to_set (fieldNames (strings.Fields toySri)) /\
  exists hp',
    WriteAll toyState.1 toyState.2 toyWrites = Some hp' /\
    length hp' = length toyState.1 /\
    coindexed [] hp' toyState.2 /\ is_Some (Check hp' toyState.2).
Proof.
  apply (maps_coindexed [] toySri toyTable toyState.1 toyState.2).
  vm_compute. reflexivity.
Defined.

(** C8.  After a successful parse [Expected] returns, for every name, the
    values of the tokens of that name in the order of the descriptor; for
    a name no token mentions this is the empty sequence. *)
Theorem Expected_in_order (hp0 : heap) (sri : string)
    (table : gmap string HashFunc) (hp : heap) (c : Checker)
    (name : string) :
  NewCheckerForHashes hp0 sri table = Ok (hp, c) ->
  Expected c name = valuesFor name (strings.Fields sri) /\
  (name ∉ fieldNames (strings.Fields sri) -> Expected c name = []).
Proof.
  intros Hok. apply NewCheckerForHashes_built in Hok as [_ Hb].
  destruct Hb as [writers [Hwf _]].
  pose proof (wf_expected _ _ _ _ _ _ _ Hwf name) as He.
  split; [exact He |].
  intros Hn. unfold Expected. rewrite He. apply valuesFor_notin. exact Hn.
Qed.

Lemma Expected_in_order_witness :
  Expected toyState.2 "t3" = valuesFor "t3" (strings.Fields toySri) /\
  ("t3" ∉ fieldNames (strings.Fields toySri) -> Expected toyState.2 "t3" = []).
Proof.
  apply (Expected_in_order [] toySri toyTable toyState.1 toyState.2).
  vm_compute. reflexivity.
Defined.

(** C6.  After a successful parse [ExpectedHex] of a name lists, entry by
    entry, the lowercase hex encoding of the bytes each entry of
    [Expected] decodes to, every such decoding being free of error; for a
    name no token mentions both are empty. *)
Theorem ExpectedHex_reencodes (hp0 : heap) (sri : string)
    (table : gmap string HashFunc) (hp : heap) (c : Checker)
    (name : string) :
  NewCheckerForHashes hp0 sri table = Ok (hp, c) ->
  Forall2 (fun e h => exists raw,
             base64.DecodeString e = (raw, None) /\
             h = hex.EncodeToString raw)
          (Expected c name) (ExpectedHex c name) /\
  (name ∉ fieldNames (strings.Fields sri) ->
   Expected c name = [] /\ ExpectedHex c name = []).
Proof.
  intros Hok. apply NewCheckerForHashes_built in Hok as [_ Hb].
  split.
  - unfold ExpectedHex. rewrite toHex_map. fold (Expected c name).
    apply Forall2_fmap_r, Forall_Forall2_diag, Forall_forall.
    intros v Hv.
    destruct (expected_valid _ _ _ _ _ _ _ _ Hb Hv) as [f [raw [_ [Hd _]]]].
    exists raw. rewrite Hd. auto.
  - intros Hn. destruct Hb as [writers [Hwf _]].
    assert (He : Expected c name = []).
    { unfold Expected. rewrite (wf_expected _ _ _ _ _ _ _ Hwf).
      apply valuesFor_notin. exact Hn. }
    split; [exact He |]. unfold ExpectedHex. fold (Expected c name).
    rewrite He. reflexivity.
Qed.

Lemma ExpectedHex_reencodes_witness :
  Forall2 (fun e h => exists raw,
             base64.DecodeString e = (raw, None) /\
             h = hex.EncodeToString raw)
          (Expected toyState.2 "t3") (ExpectedHex toyState.2 "t3") /\
  ("t3" ∉ fieldNames (strings.Fields toySri) ->
   Expected toyState.2 "t3" = [] /\ ExpectedHex toyState.2 "t3" = []).
Proof.
  apply (ExpectedHex_reencodes [] toySri toyTable toyState.1 toyState.2).
  vm_compute. reflexivity.
Defined.

(** ** The parser *)

(** The parse fails with the defect of the first defective token. *)
Lemma first_defect (hp0 : heap) (sri : string)
    (table : gmap string HashFunc) (pre post : list string) (tok : string)
    (e : error) :
  strings.Fields sri = pre ++ tok :: post ->
  firstError table pre = None ->
  tokenError table tok = Some e ->
  NewCheckerForHashes hp0 sri table = Err e.
Proof.
  intros Hf Hpre Htok.
  pose proof (NewCheckerForHashes_spec hp0 sri table) as Hs.
  unfold parseError in Hs. rewrite Hf, firstError_app, Hpre in Hs.
  simpl in Hs. rewrite Htok in Hs. exact Hs.
Qed.

Lemma splitField_None (field : string) :
  splitField field = None <-> strings.IndexRune field "-"%char = (-1)%Z.
Proof.
  unfold splitField.
  destruct (Z.eqb_spec (strings.IndexRune field "-"%char) (-1)).
  - tauto.
  - split; [discriminate | contradiction].
Qed.

(** C2.  For every descriptor and table the error of the parse is the
    one the fixed order of checks gives ([parseError]).  Spelled out for
    the first defective token [tok] of a descriptor: without ['-'] it
    fails as a malformed token, whatever else is wrong with it; else with
    a name absent from the table as an unknown algorithm, whatever its
    value; else with a value that does not decode as invalid base64,
    whatever the number of bytes decoded; else with a decoded length other
    than the output size as an invalid length. *)
Theorem parse_checks_in_order (hp0 : heap) (sri : string)
    (table : gmap string HashFunc) :
  match parseError table sri with
  | Some e => NewCheckerForHashes hp0 sri table = Err e
  | None => exists hp c, NewCheckerForHashes hp0 sri table = Ok (hp, c)
  end /\
  forall (pre post : list string) (tok : string),
    strings.Fields sri = pre ++ tok :: post ->
    firstError table pre = None ->
    (strings.IndexRune tok "-"%char = (-1)%Z ->
     NewCheckerForHashes hp0 sri table = Err (ErrSubstring tok)) /\
    (forall name value,
       splitField tok = Some (name, value) -> table !! name = None ->
       NewCheckerForHashes hp0 sri table = Err (ErrUnknownHash name)) /\
    (forall name value f raw off,
       splitField tok = Some (name, value) -> table !! name = Some f ->
       base64.DecodeString value = (raw, Some off) ->
       NewCheckerForHashes hp0 sri table = Err (ErrBase64 off)) /\
    (forall name value f raw,
       splitField tok = Some (name, value) -> table !! name = Some f ->
       base64.DecodeString value = (raw, None) ->
       length raw <> hashSize f ->
       NewCheckerForHashes hp0 sri table
       = Err (ErrHashLength value name (hashSize f) (length raw))).
Proof.
  split.
  { pose proof (NewCheckerForHashes_spec hp0 sri table) as Hs.
    destruct (parseError table sri); [exact Hs |].
    destruct Hs as [hp [c [Hs _]]]. eauto. }
  intros pre post tok Hf Hpre. repeat split.
  - intros Hi. apply (first_defect _ _ _ _ _ _ _ Hf Hpre).
    unfold tokenError. apply splitField_None in Hi. rewrite Hi. reflexivity.
  - intros name value Hs Ht. apply (first_defect _ _ _ _ _ _ _ Hf Hpre).
    unfold tokenError. rewrite Hs, Ht. reflexivity.
  - intros name value f raw off Hs Ht Hd.
    apply (first_defect _ _ _ _ _ _ _ Hf Hpre).
    unfold tokenError, valueError. rewrite Hs, Ht, Hd. reflexivity.
  - intros name value f raw Hs Ht Hd Hl.
    apply (first_defect _ _ _ _ _ _ _ Hf Hpre).
    unfold tokenError, valueError. rewrite Hs, Ht, Hd.
    destruct (decide (length raw ≠ hashSize f)); [reflexivity | contradiction].
Qed.

(** An unknown name with a value that is not base64 either: the unknown
    name is reported. *)
Lemma parse_checks_in_order_witness :
  NewCheckerForHashes [] "t3-w8PD zz-!!! junk" toyTable
  = Err (ErrUnknownHash "zz").
Proof.
  refine (proj1 (proj2
            (proj2 (parse_checks_in_order [] "t3-w8PD zz-!!! junk" toyTable)
               ["t3-w8PD"] ["junk"] "zz-!!!" _ _)) "zz" "!!!" _ _);
    vm_compute; reflexivity.
Defined.

(** C3.  A token whose name already occurred in the descriptor and whose
    value does not pass validation makes the parse fail.  When the tokens
    before it are accepted, the loop has by then one accumulator [h] for
    the name in the store, [addHash] fails on the token with the defect of
    its value against the size of [h], and that is the error of the
    parse. *)
Theorem repeated_name_validated (hp0 : heap) (sri : string)
    (table : gmap string HashFunc) (pre post : list string)
    (tok name value : string) :
  strings.Fields sri = pre ++ tok :: post ->
  splitField tok = Some (name, value) ->
  name ∈ fieldNames pre ->
  (forall f, table !! name = Some f ->
     valueError (hashSize f) name value <> None) ->
  exists e,
    NewCheckerForHashes hp0 sri table = Err e /\
    (firstError table pre = None ->
     exists hp c writers a h,
       fieldsLoop pre hp0 (mkChecker ∅ ∅ None) [] table
       = Ok (hp, c, writers) /\
       hashes c !! name = Some a /\ hp !! a = Some h /\
       valueError (hash.Size h) name value = Some e /\
       addHash hp c name value table = Err e).
Proof.
  intros Hf Hs Hin Hbad.
  pose proof (NewCheckerForHashes_spec hp0 sri table) as Hspec.
  unfold parseError in Hspec. rewrite Hf, firstError_app in Hspec.
  pose proof (fieldsLoop_spec table hp0 pre [] hp0 _ []
                (wf_state_init hp0 table)) as Hloop.
  destruct (firstError table pre) as [e|] eqn:Hpre.
  - exists e. split; [exact Hspec | discriminate].
  - destruct Hloop as [hp [c [writers [Hl [_ Hwf]]]]]. simpl in Hwf.
    apply (wf_names _ _ _ _ _ _ _ Hwf) in Hin as [a Ha].
    destruct (wf_hashes _ _ _ _ _ _ _ Hwf _ _ Ha) as [_ [f [Ht Hh]]].
    destruct (valueError (hashSize f) name value) as [e|] eqn:Hv.
    2:{ exfalso. eapply Hbad; eassumption. }
    exists e. split.
    + simpl in Hspec. unfold tokenError in Hspec.
      rewrite Hs, Ht, Hv in Hspec. exact Hspec.
    + intros _. exists hp, c, writers, a, (accum f []).
      repeat split; try assumption.
      rewrite (addHash_present _ _ _ _ _ _ _ Ha Hh). simpl.
      rewrite Hv. reflexivity.
Qed.

(** A second [t3] value of the wrong length. *)
Lemma repeated_name_validated_witness :
  exists e,
    NewCheckerForHashes [] "t3-w8PD t6-w8PDw8PD t3-AAAAAAAA" toyTable = Err e /\
    (firstError toyTable ["t3-w8PD"; "t6-w8PDw8PD"] = None ->
     exists hp c writers a h,
       fieldsLoop ["t3-w8PD"; "t6-w8PDw8PD"] [] (mkChecker ∅ ∅ None) []
         toyTable = Ok (hp, c, writers) /\
       hashes c !! "t3" = Some a /\ hp !! a = Some h /\
       valueError (hash.Size h) "t3" "AAAAAAAA" = Some e /\
       addHash hp c "t3" "AAAAAAAA" toyTable = Err e).
Proof.
  apply (repeated_name_validated [] "t3-w8PD t6-w8PDw8PD t3-AAAAAAAA"
           toyTable ["t3-w8PD"; "t6-w8PDw8PD"] [] "t3-AAAAAAAA").
  - vm_compute. reflexivity.
  - vm_compute. reflexivity.
  - vm_compute. left.
  - intros f Hf. vm_compute in Hf. injection Hf as <-.
    vm_compute. discriminate.
Defined.

(** A field under collection is always emitted. *)
Lemma fieldsFrom_Some_ne (s : string) (k : nat) (f : string) :
  strings.fieldsFrom k (Some f) s <> [].
Proof.
  revert k f.
  induction s as [|c r IH]; intros k f; cbn [strings.fieldsFrom];
    [simpl; discriminate |].
  destruct k as [|k]; [| apply IH].
  destruct (strings.spaceWidth (String c r)); [| simpl; discriminate].
  unfold strings.extend. apply IH.
Qed.

(** A white space rune at the head of [s] is a prefix of [s]. *)
Lemma spaceWidth_split (s : string) (k : nat) :
  strings.spaceWidth s = S k ->
  exists p rest,
    s = p +:+ rest /\ String.length p = S k /\ strings.spaceWidth p = S k.
Proof.
  unfold strings.spaceWidth.
  destruct s as [|c r]; [discriminate |].
  destruct (strings.asciiSpace c) eqn:Hc.
  { intros [= <-]. exists (String c ""), r. simpl. rewrite Hc. auto. }
  destruct r as [|d r']; [discriminate |].
  destruct (ord c =? 194)%N eqn:H194.
  { destruct ((ord d =? 133) || (ord d =? 160))%N eqn:Hd; [| discriminate].
    intros [= <-]. exists (String c (String d "")), r'. simpl.
    rewrite Hc, H194, Hd. auto. }
  destruct r' as [|e r'']; [discriminate |].
  intros Hw. exists (String c (String d (String e ""))), r''.
  split; [reflexivity |]. simpl. rewrite Hc, H194.
  cbv zeta in Hw |- *. rewrite Hw.
  repeat match type of Hw with
         | context [if ?b then _ else _] => destruct b
         end; try discriminate; injection Hw as <-; auto.
Qed.

Lemma Fields_nil_onlySpace (s : string) :
  strings.Fields s = [] -> onlySpace s.
Proof.
  unfold strings.Fields.
  remember (String.length s) as n eqn:Hn.
  revert s Hn. induction n as [n IH] using lt_wf_ind. intros s Hn Hf.
  destruct s as [|c r]; [constructor |].
  cbn [strings.fieldsFrom] in Hf.
  destruct (strings.spaceWidth (String c r)) as [|k] eqn:Hw.
  { exfalso. eapply fieldsFrom_Some_ne. exact Hf. }
  destruct (spaceWidth_split _ _ Hw) as [p [rest [Hs [Hl Hp]]]].
  destruct p as [|c' p']; [discriminate |].
  rewrite append_String in Hs. injection Hs as <- ->.
  simpl in Hl. injection Hl as Hl. subst k.
  simpl in Hf. rewrite fieldsFrom_skip in Hf.
  change (onlySpace (String c p' +:+ rest)).
  constructor.
  - rewrite Hp. reflexivity.
  - discriminate.
  - apply (IH (String.length rest)); [| reflexivity | exact Hf].
    subst n. simpl. rewrite length_append. lia.
Qed.

(** C7.  A descriptor has no token exactly when it is made of white space
    runes only (the empty string included), and exactly then the parse
    fails with the empty-descriptor error: a loop that ends with no
    accumulator registered gives that error, and a [Checker] that is
    returned has at least one accumulator. *)
Theorem empty_descriptor_rejected (hp0 : heap) (sri : string)
    (table : gmap string HashFunc) :
  (onlySpace sri <-> strings.Fields sri = []) /\
  (strings.Fields sri = [] <->
   NewCheckerForHashes hp0 sri table = Err (ErrEmpty sri)) /\
  (forall hp c,
     fieldsLoop (strings.Fields sri) hp0 (mkChecker ∅ ∅ None) [] table
     = Ok (hp, c, []) ->
     NewCheckerForHashes hp0 sri table = Err (ErrEmpty sri)) /\
  (forall hp c,
     NewCheckerForHashes hp0 sri table = Ok (hp, c) ->
     0 < size (hashes c) /\ length hp = length hp0 + size (hashes c)).
Proof.
  split; [split; [apply onlySpace_Fields | apply Fields_nil_onlySpace] |].
  split; [split |].
  - intros Hf. unfold NewCheckerForHashes. rewrite Hf. reflexivity.
  - intros Herr.
    pose proof (NewCheckerForHashes_spec hp0 sri table) as Hs.
    unfold parseError in Hs.
    destruct (firstError table (strings.Fields sri)) as [e|] eqn:He.
    + rewrite Hs in Herr. injection Herr as ->.
      exfalso. clear Hs. revert He.
      induction (strings.Fields sri) as [|t l IHl]; simpl; [discriminate |].
      destruct (tokenError table t) as [e|] eqn:Ht; [| exact IHl].
      intros [= ->]. unfold tokenError, valueError in Ht.
      destruct (splitField t) as [[n v]|]; [| discriminate].
      destruct (table !! n) as [f|]; [| discriminate].
      destruct (base64.DecodeString v) as [raw [off|]]; [discriminate |].
      destruct (decide (length raw ≠ hashSize f)); discriminate.
    + destruct (strings.Fields sri); [reflexivity |].
      destruct Hs as [hp [c [Hs _]]]. rewrite Hs in Herr. discriminate.
  - split.
    + intros hp c Hl. unfold NewCheckerForHashes. rewrite Hl. reflexivity.
    + intros hp c Hok.
      apply NewCheckerForHashes_built in Hok as [_ Hb].
      pose proof (built_coindexed _ _ _ _ _ _ Hb) as [_ [Hsz _]].
      destruct Hb as [writers [Hwf [Hne _]]].
      pose proof (wf_size _ _ _ _ _ _ _ Hwf) as Hws.
      destruct Hwf as [[cells [-> _]] _ _ _ _ _ _ _].
      rewrite length_app in *.
      destruct writers; [contradiction | simpl in Hws; lia].
Qed.

Lemma empty_descriptor_rejected_witness :
  NewCheckerForHashes [] (String (chr 9) "    ") toyTable
  = Err (ErrEmpty (String (chr 9) "    ")).
Proof.
  apply (proj1 (proj1 (proj2
           (empty_descriptor_rejected [] (String (chr 9) "    ") toyTable)))).
  vm_compute. reflexivity.
Defined.

(** Neither preset has an algorithm with the empty name. *)
Lemma presets_no_empty_name
    (sha1_sum sha256_sum sha384_sum sha512_sum : list byte -> list byte) :
  defaultHashes sha256_sum sha384_sum sha512_sum !! "" = None /\
  sha1Hashes sha1_sum sha256_sum sha384_sum sha512_sum !! "" = None.
Proof.
  unfold sha1Hashes, defaultHashes.
  rewrite !lookup_insert_ne by discriminate. rewrite lookup_empty. auto.
Qed.

(** C9.  When the first defective token of a descriptor starts with
    ['-'], the separator is found at index 0 and the name is empty; with
    a table that has no algorithm of the empty name the parse fails with
    the unknown-algorithm error for the empty name, not with the
    malformed-token error.  The tables of [NewChecker] and
    [NewCheckerWithSHA1] are such tables. *)
Theorem leading_dash_unknown (hp0 : heap) (sri : string)
    (table : gmap string HashFunc) (pre post : list string) (rest : string) :
  strings.Fields sri = pre ++ String "-"%char rest :: post ->
  firstError table pre = None ->
  table !! "" = None ->
  strings.IndexRune (String "-"%char rest) "-"%char = 0%Z /\
  splitField (String "-"%char rest) = Some ("", rest) /\
  NewCheckerForHashes hp0 sri table = Err (ErrUnknownHash "") /\
  (forall sha1_sum sha256_sum sha384_sum sha512_sum,
     defaultHashes sha256_sum sha384_sum sha512_sum !! "" = None /\
     sha1Hashes sha1_sum sha256_sum sha384_sum sha512_sum !! "" = None).
Proof.
  intros Hf Hpre Ht.
  split; [reflexivity |]. split; [apply splitField_dash |]. split.
  - apply (first_defect _ _ _ _ _ _ _ Hf Hpre).
    unfold tokenError. rewrite splitField_dash, Ht. reflexivity.
  - apply presets_no_empty_name.
Qed.

Lemma leading_dash_unknown_witness :
  NewCheckerForHashes [] "sha256-47DEQpj8HBSa+/TImW+5JCeuQeRkm5NMpJWZG3hSuFU= -abc"
    (defaultHashes (toySum 32) (toySum 48) (toySum 64))
  = Err (ErrUnknownHash "").
Proof.
  refine (proj1 (proj2 (proj2
    (leading_dash_unknown []
       "sha256-47DEQpj8HBSa+/TImW+5JCeuQeRkm5NMpJWZG3hSuFU= -abc"
       (defaultHashes (toySum 32) (toySum 48) (toySum 64))
       ["sha256-47DEQpj8HBSa+/TImW+5JCeuQeRkm5NMpJWZG3hSuFU="] [] "abc"
       _ _ _)))); vm_compute; reflexivity.
Defined.

(** C10, as amended.  When the first defective token of a descriptor is
    [name-] with an empty value, [name] has no ['-'], is in the table and
    its algorithm has a non-zero output size, the parse fails with the
    invalid-length error for a decoded length of 0 against that size:
    decoding the empty string succeeds and yields no bytes. *)
Theorem empty_value_invalid_length (hp0 : heap) (sri : string)
    (table : gmap string HashFunc) (pre post : list string)
    (name : string) (f : HashFunc) :
  strings.Fields sri = pre ++ (name +:+ "-") :: post ->
  strings.IndexByte name "-"%char = (-1)%Z ->
  firstError table pre = None ->
  table !! name = Some f ->
  hashSize f <> 0 ->
  base64.DecodeString "" = ([], None) /\
  NewCheckerForHashes hp0 sri table
  = Err (ErrHashLength "" name (hashSize f) 0).
Proof.
  intros Hf Hn Hpre Ht Hsz. split; [reflexivity |].
  apply (first_defect _ _ _ _ _ _ _ Hf Hpre).
  unfold tokenError. rewrite (splitField_app name "" Hn), Ht.
  unfold valueError. simpl.
  destruct (decide (0 ≠ hashSize f)) as [_ | He]; [reflexivity |].
  exfalso. apply He. intros H0. apply Hsz. symmetry. exact H0.
Qed.

Lemma empty_value_invalid_length_witness :
  base64.DecodeString "" = ([], None) /\
  NewCheckerForHashes [] "t3-w8PD t6- t6-AAAAAAA" toyTable
  = Err (ErrHashLength "" "t6" 6 0).
Proof.
  apply (empty_value_invalid_length [] "t3-w8PD t6- t6-AAAAAAA" toyTable
           ["t3-w8PD"] ["t6-AAAAAAA"] "t6" (mkHashFunc 6 (toySum 6)));
    vm_compute; try reflexivity; discriminate.
Defined.

(** C10 as stated fails for an algorithm whose output size is zero: the
    token [z-] has an empty value, its name is in the table, and the
    parse succeeds. *)
Lemma empty_value_zero_size_accepted :
  strings.Fields "z-" = ["z" +:+ "-"] /\
  strings.IndexByte "z" "-"%char = (-1)%Z /\
  zeroTable !! "z" = Some (mkHashFunc 0 (fun _ => [])) /\
  (exists hp c, NewCheckerForHashes [] "z-" zeroTable = Ok (hp, c)) /\
  NewCheckerForHashes [] "z-" zeroTable <> Err (ErrHashLength "" "z" 0 0).
Proof.
  split; [reflexivity |]. split; [reflexivity |].
  split; [vm_compute; reflexivity |].
  pose proof (NewCheckerForHashes_spec [] "z-" zeroTable) as Hs.
  assert (Hp : parseError zeroTable "z-" = None) by (vm_compute; reflexivity).
  rewrite Hp in Hs. destruct Hs as [hp [c [Hs _]]].
  split; [eauto |]. rewrite Hs. discriminate.
Qed.

(** ** The parse-time tests of [sri_test.go]

    These tests do not depend on the digest functions [d1], [d256],
    [d384] and [d512], which stay abstract. *)

Example TestInvalidHashName (d256 d384 d512 : list byte -> list byte) :
  NewChecker d256 d384 d512 [] "sha1-plyJ8jPttaMEVHl2WQbzDVT4pfU="
  = Err (ErrUnknownHash "sha1").
Proof. vm_compute. reflexivity. Qed.

Example TestSHA1_parses (d1 d256 d384 d512 : list byte -> list byte) :
  exists st,
    NewCheckerWithSHA1 d1 d256 d384 d512 [] "sha1-plyJ8jPttaMEVHl2WQbzDVT4pfU="
    = Ok st.
Proof. eexists. vm_compute. reflexivity. Qed.

Example TestNotBase64 (d256 d384 d512 : list byte -> list byte) :
  NewChecker d256 d384 d512 [] "sha256-wibblewibblewibble"
  = Err (ErrBase64 16).
Proof. vm_compute. reflexivity. Qed.

Example TestInvalidHashLength (d256 d384 d512 : list byte -> list byte) :
  NewChecker d256 d384 d512 []
    "sha256-ixBUOCmT6wnGpEL5AxEsAm9EdJCBj7kF099SUkvIbtB63ydFdgNgXVj784BCcJ2k"
  = Err (ErrHashLength
           "ixBUOCmT6wnGpEL5AxEsAm9EdJCBj7kF099SUkvIbtB63ydFdgNgXVj784BCcJ2k"
           "sha256" 32 48).
Proof. vm_compute. reflexivity. Qed.

Example TestInvalidHashLengthSecondTime
    (d256 d384 d512 : list byte -> list byte) :
  NewChecker d256 d384 d512 []
    ("sha256-y1v31NktLrKLVp1gbS7zjWtYgDICENEw7hKLJHcw4E0= " +:+
     "sha256-ixBUOCmT6wnGpEL5AxEsAm9EdJCBj7kF099SUkvIbtB63ydFdgNgXVj784BCcJ2k")
  = Err (ErrHashLength
           "ixBUOCmT6wnGpEL5AxEsAm9EdJCBj7kF099SUkvIbtB63ydFdgNgXVj784BCcJ2k"
           "sha256" 32 48).
Proof. vm_compute. reflexivity. Qed.

Example TestNonsenseInput (d256 d384 d512 : list byte -> list byte) :
  NewChecker d256 d384 d512 [] "wibble wibble wibble"
  = Err (ErrSubstring "wibble").
Proof. vm_compute. reflexivity. Qed.

Example TestNoInput (d256 d384 d512 : list byte -> list byte) :
  NewChecker d256 d384 d512 [] "" = Err (ErrEmpty "").
Proof. vm_compute. reflexivity. Qed.

Example TestExpected (d256 d384 d512 : list byte -> list byte) :
  match NewChecker d256 d384 d512 [] testSri with
  | Ok (_, c) =>
      Expected c "sha256"
      = ["y1v31NktLrKLVp1gbS7zjWtYgDICENEw7hKLJHcw4E0=";
         "49hwASqGvw3v5oq2Pu4U2jR2Pv9KCMm2VGFAqCwEXhI="] /\
      Expected c "sha512"
      = ["xLpYEEen45RJnXxmFACS66+sO/1Xuo192Xq6uIarYI4uE7MZevI2pTyoKUZAFVP9tvfhJTS6YjOJcMc8ckoRkw==";
         "jt9sSgTPOFnKQWLknlJEWjBq6UaOcjZzJOwlSgaEWr1b8IfmBmOMJZ91TmrZzjbUUB211oxxKEjyOBQHeXiDoA=="] /\
      Expected c "md5" = []
  | _ => False
  end.
Proof. vm_compute. repeat split. Qed.

Example TestExpectedHex (d256 d384 d512 : list byte -> list byte) :
  match NewChecker d256 d384 d512 [] testSri with
  | Ok (_, c) =>
      ExpectedHex c "sha256"
      = ["cb5bf7d4d92d2eb28b569d606d2ef38d6b5880320210d130ee128b247730e04d";
         "e3d870012a86bf0defe68ab63eee14da34763eff4a08c9b6546140a82c045e12"] /\
      ExpectedHex c "sha512"
      = ["c4ba581047a7e394499d7c66140092ebafac3bfd57ba8d7dd97abab886ab608e2e13b3197af236a53ca82946401553fdb6f7e12534ba62338970c73c724a1193";
         "8edf6c4a04cf3859ca4162e49e52445a306ae9468e72367324ec254a06845abd5bf087e606638c259f754e6ad9ce36d4501db5d68c712848f2381407797883a0"] /\
      length (ExpectedHex c "md5") = 0
  | _ => False
  end.
Proof. vm_compute. repeat split. Qed.

(** ** More on the verifier *)

Lemma feed_nil (h : hash.Hash) : feed [] h = h.
Proof. destruct h as [n d wr]. unfold feed. simpl. rewrite app_nil_r. reflexivity. Qed.

Lemma feed_feed (p q : list byte) (h : hash.Hash) :
  feed p (feed q h) = feed (q ++ p) h.
Proof. unfold feed. simpl. rewrite app_assoc. reflexivity. Qed.

(** The store of a constructed [Checker] is the store it started from
    followed by its accumulators. *)
Lemma built_cells (hp0 : heap) (table : gmap string HashFunc)
    (toks : list string) (data : list byte) (hp : heap) (c : Checker) :
  built hp0 table toks data hp c ->
  exists cells, hp = hp0 ++ cells /\ length cells = size (hashes c).
Proof.
  intros [writers [Hwf _]].
  pose proof (wf_size _ _ _ _ _ _ _ Hwf) as Hsz.
  destruct (wf_cells _ _ _ _ _ _ _ Hwf) as [cells [-> Hws]].
  exists cells. split; [reflexivity |].
  rewrite Hsz, Hws, length_seq. reflexivity.
Qed.

Lemma Write_cells (hp0 : heap) (table : gmap string HashFunc)
    (toks : list string) (data : list byte) (cells : heap) (c : Checker)
    (b : list byte) :
  built hp0 table toks data (hp0 ++ cells) c ->
  Write (hp0 ++ cells) c b
  = Some (hp0 ++ (feed b <$> cells), (length b, None)).
Proof.
  intros [writers [Hwf [Hne Hw]]].
  destruct (wf_cells _ _ _ _ _ _ _ Hwf) as [cells' [Hhp Hws]].
  apply app_inv_head in Hhp. subst cells'.
  unfold Write. rewrite Hw.
  pose proof (multiWrite_seq cells hp0 b) as Hm. rewrite <- Hws in Hm.
  destruct writers as [|w0 [|w1 ws]]; [contradiction | | exact Hm].
  simpl in Hm |- *.
  destruct (hashWrite (hp0 ++ cells) w0 b) as [[hp1 [n [e|]]]|];
    try discriminate.
  destruct (decide (n ≠ length b)); [discriminate |].
  assert (n = length b) as ->.
  { destruct (decide (n = length b)); [assumption | contradiction]. }
  exact Hm.
Qed.

Lemma WriteAll_cells (hp0 : heap) (table : gmap string HashFunc)
    (toks : list string) (bs : list (list byte)) (data : list byte)
    (cells : heap) (c : Checker) :
  built hp0 table toks data (hp0 ++ cells) c ->
  WriteAll (hp0 ++ cells) c bs = Some (hp0 ++ (feed (concat bs) <$> cells)).
Proof.
  revert data cells. induction bs as [|b bs IH]; intros data cells Hb; simpl.
  - f_equal. f_equal. rewrite <- (list_fmap_id cells) at 1.
    apply list_fmap_ext. intros i h _. symmetry. apply feed_nil.
  - destruct (Write_built _ _ _ _ _ _ b Hb) as [hp1 [Hw1 Hb1]].
    rewrite (Write_cells _ _ _ _ _ _ b Hb) in Hw1 |- *.
    injection Hw1 as <-.
    rewrite (IH _ _ Hb1). f_equal. f_equal.
    rewrite <- list_fmap_compose. apply list_fmap_ext.
    intros i h _. simpl. apply feed_feed.
Qed.

(** X1.  The state of a constructed [Checker] after a run of writes
    depends only on the concatenation of the slices written: two runs
    with the same concatenation, however it is cut into slices, leave the
    same store. *)
Theorem Write_chunking (hp0 : heap) (sri : string)
    (table : gmap string HashFunc) (hp : heap) (c : Checker)
    (bs1 bs2 : list (list byte)) :
  NewCheckerForHashes hp0 sri table = Ok (hp, c) ->
  concat bs1 = concat bs2 ->
  WriteAll hp c bs1 = WriteAll hp c bs2 /\ is_Some (WriteAll hp c bs1).
Proof.
  intros Hok Hcat. apply NewCheckerForHashes_built in Hok as [_ Hb].
  destruct (built_cells _ _ _ _ _ _ Hb) as [cells [-> _]].
  rewrite !(WriteAll_cells _ _ _ _ _ _ _ Hb), Hcat. split; [reflexivity | eauto].
Qed.

Lemma Write_chunking_witness :
  WriteAll toyState.1 toyState.2 toyWrites
  = WriteAll toyState.1 toyState.2 [bytes_of_string "ab"; []] /\
  is_Some (WriteAll toyState.1 toyState.2 toyWrites).
Proof.
  apply (Write_chunking [] toySri toyTable toyState.1 toyState.2).
  - vm_compute. reflexivity.
  - reflexivity.
Defined.



(** X3.  After any run of writes every accumulator registered under a
    name holds the algorithm the table gives for that name, with exactly
    the concatenation of the written slices as its input: each slice
    reached each accumulator once, in order. *)
Theorem accumulators_fed (hp0 : heap) (sri : string)
    (table : gmap string HashFunc) (hp : heap) (c : Checker)
    (bs : list (list byte)) (hp' : heap) (name : string) (a : addr) :
  NewCheckerForHashes hp0 sri table = Ok (hp, c) ->
  WriteAll hp c bs = Some hp' ->
  hashes c !! name = Some a ->
  exists f,
    table !! name = Some f /\
    hp' !! a = Some (hash.mkHash (hashSize f) (hashDigest f) (concat bs)).
Proof.
  intros Hok Hw Ha. apply NewCheckerForHashes_built in Hok as [_ Hb].
  destruct (WriteAll_built _ _ _ bs _ _ _ Hb) as [hp2 [Hw2 Hb2]].
  rewrite Hw in Hw2. injection Hw2 as <-. simpl in Hb2.
  destruct Hb2 as [writers [Hwf _]].
  destruct (wf_hashes _ _ _ _ _ _ _ Hwf _ _ Ha) as [_ [f [Hf Hl]]].
  exists f. split; [exact Hf | exact Hl].
Qed.

Lemma accumulators_fed_witness :
  exists f,
    toyTable !! "t6" = Some f /\
    toyFinal !! 1
    = Some (hash.mkHash (hashSize f) (hashDigest f) (concat toyWrites)).
Proof.
  apply (accumulators_fed [] toySri toyTable toyState.1 toyState.2
           toyWrites toyFinal "t6" 1); vm_compute; reflexivity.
Defined.

Lemma checkHash_failing (hp0 : heap) (table : gmap string HashFunc)
    (toks : list string) (data : list byte) (hp : heap) (c : Checker)
    (name : string) (a : addr) :
  built hp0 table toks data hp c ->
  hashes c !! name = Some a ->
  checkHash hp c name a
  = Some (match failing table c data (name, a) with
          | Some m => [m]
          | None => []
          end).
Proof.
  intros [writers [Hwf _]] Ha.
  destruct (wf_hashes _ _ _ _ _ _ _ Hwf _ _ Ha) as [_ [f [Hf Hl]]].
  unfold checkHash, failing, violation, Expected. simpl.
  rewrite Hl, Hf. unfold hash.Sum. simpl.
  destruct (contains (expected_at c name)
              (base64.EncodeToString (hashDigest f data))); reflexivity.
Qed.

Lemma checkMsgs_failing (hp0 : heap) (table : gmap string HashFunc)
    (toks : list string) (data : list byte) (hp : heap) (c : Checker)
    (order : list (string * addr)) (msgs : list string) :
  built hp0 table toks data hp c ->
  (forall name a, (name, a) ∈ order -> hashes c !! name = Some a) ->
  checkMsgs hp c order msgs
  = Some (msgs ++ omap (failing table c data) order).
Proof.
  intros Hb. revert msgs.
  induction order as [|[name a] order IH]; intros msgs Hall; simpl.
  - rewrite app_nil_r. reflexivity.
  - rewrite (checkHash_failing _ _ _ _ _ _ _ _ Hb) by (apply Hall; left).
    rewrite IH by (intros n b Hin; apply Hall; right; exact Hin).
    destruct (failing table c data (name, a)); simpl.
    + rewrite <- app_assoc. reflexivity.
    + rewrite app_nil_r. reflexivity.
Qed.

(** X4.  [Check] reports every algorithm that fails, not only the first:
    for the iteration order [order] of [c.hashes] its error carries, in
    that order, one message for each registered algorithm whose digest of
    the written bytes is not among its expected values, with the name,
    the digest in base64 and in hex, and the expected values in both
    forms; it is nil when there is no such algorithm. *)
Theorem Check_reports_all (hp0 : heap) (sri : string)
    (table : gmap string HashFunc) (hp : heap) (c : Checker)
    (bs : list (list byte)) (hp' : heap) (order : list (string * addr)) :
  NewCheckerForHashes hp0 sri table = Ok (hp, c) ->
  WriteAll hp c bs = Some hp' ->
  order ≡ₚ map_to_list (hashes c) ->
  CheckIn order hp' c
  = Some (match omap (failing table c (concat bs)) order with
          | [] => None
          | msgs => Some (ErrIntegrity msgs)
          end).
Proof.
  intros Hok Hw Hperm. apply NewCheckerForHashes_built in Hok as [_ Hb].
  destruct (WriteAll_built _ _ _ bs _ _ _ Hb) as [hp2 [Hw2 Hb2]].
  rewrite Hw in Hw2. injection Hw2 as <-. simpl in Hb2.
  unfold CheckIn.
  rewrite (checkMsgs_failing _ _ _ _ _ _ order [] Hb2).
  - simpl. destruct (omap (failing table c (concat bs)) order); reflexivity.
  - intros name a Hin. rewrite Hperm in Hin.
    apply elem_of_map_to_list in Hin. exact Hin.
Qed.

Lemma Check_reports_all_witness :
  CheckIn (map_to_list (hashes toyState.2)) toyFinal toyState.2
  = Some (match omap (failing toyTable toyState.2 (concat toyWrites))
                  (map_to_list (hashes toyState.2)) with
          | [] => None
          | msgs => Some (ErrIntegrity msgs)
          end).
Proof.
  apply (Check_reports_all [] toySri toyTable toyState.1 toyState.2
           toyWrites toyFinal); vm_compute; reflexivity.
Defined.

Lemma valuesFor_in (n : string) (toks : list string) :
  n ∈ fieldNames toks -> valuesFor n toks <> [].
Proof.
  unfold fieldNames, valuesFor.
  induction (omap splitField toks) as [|[k v] l IH]; simpl; intros Hn.
  - inversion Hn.
  - rewrite filter_cons. simpl.
    destruct (decide (k = n)) as [-> | Hk]; [discriminate |].
    apply IH. apply elem_of_cons in Hn as [-> | Hn]; [contradiction | exact Hn].
Qed.

(** X5.  After a successful parse a name has an accumulator exactly when
    it has at least one expected value: no digest is computed for an
    algorithm the descriptor does not mention, and [Check] never compares
    a digest with an empty list. *)
Theorem accumulator_iff_expected (hp0 : heap) (sri : string)
    (table : gmap string HashFunc) (hp : heap) (c : Checker)
    (name : string) :
  NewCheckerForHashes hp0 sri table = Ok (hp, c) ->
  is_Some (hashes c !! name) <-> Expected c name <> [].
Proof.
  intros Hok. apply NewCheckerForHashes_built in Hok as [_ Hb].
  destruct Hb as [writers [Hwf _]]. unfold Expected.
  rewrite (wf_expected _ _ _ _ _ _ _ Hwf), (wf_names _ _ _ _ _ _ _ Hwf).
  split; [apply valuesFor_in |].
  intros Hne. destruct (decide (name ∈ fieldNames (strings.Fields sri)))
    as [Hin | Hnin]; [exact Hin |].
  exfalso. apply Hne. apply valuesFor_notin. exact Hnin.
Qed.

Lemma accumulator_iff_expected_witness :
  is_Some (hashes toyState.2 !! "t3") <-> Expected toyState.2 "t3" <> [].
Proof.
  apply (accumulator_iff_expected [] toySri toyTable toyState.1).
  vm_compute. reflexivity.
Defined.

(** X6.  [contains] holds exactly when the needle is an element of the
    haystack. *)
Theorem contains_iff_elem (haystack : list string) (needle : string) :
  contains haystack needle = true <-> needle ∈ haystack.
Proof.
  induction haystack as [|straw rest IH]; simpl.
  - split; [discriminate |]. intros H. inversion H.
  - destruct (String.eqb_spec straw needle) as [-> | Hne].
    + split; [intros _; left | reflexivity].
    + rewrite IH, elem_of_cons. split; [tauto |].
      intros [-> | H]; [contradiction | exact H].
Qed.

(** ** The table *)

(** The parser reads the table only at the names of the tokens. *)
Lemma fieldsLoop_table_agree (table table' : gmap string HashFunc)
    (fields : list string) (hp : heap) (c : Checker) (writers : list addr) :
  (forall name, name ∈ fieldNames fields -> table !! name = table' !! name) ->
  fieldsLoop fields hp c writers table = fieldsLoop fields hp c writers table'.
Proof.
  revert hp c writers.
  induction fields as [|field rest IH]; intros hp c writers Hag;
    [reflexivity |].
  rewrite !fieldsLoop_cons.
  destruct (splitField field) as [[name value]|] eqn:Hs; [| reflexivity].
  assert (Hrest : forall n, n ∈ fieldNames rest -> table !! n = table' !! n).
  { intros n Hn. apply Hag. unfold fieldNames in *. simpl. rewrite Hs.
    right. exact Hn. }
  assert (Hname : table !! name = table' !! name).
  { apply Hag. unfold fieldNames. simpl. rewrite Hs. left. }
  assert (Hadd : addHash hp c name value table
                 = addHash hp c name value table').
  { unfold addHash. rewrite Hname. reflexivity. }
  rewrite Hadd.
  destruct (addHash hp c name value table') as [[[hp' c'] h]| |]; simpl;
    [| reflexivity ..].
  apply IH. exact Hrest.
Qed.

Lemma firstError_None_names (table : gmap string HashFunc)
    (toks : list string) (name : string) :
  firstError table toks = None ->
  name ∈ fieldNames toks -> is_Some (table !! name).
Proof.
  rewrite firstError_None, Forall_forall. intros Hall Hin.
  unfold fieldNames in Hin.
  apply list_elem_of_fmap in Hin as [[n v] [-> Hin]].
  apply list_elem_of_omap in Hin as [t [Ht Hs]].
  specialize (Hall t Ht). unfold tokenError in Hall. rewrite Hs in Hall.
  simpl. destruct (table !! n); [eauto | discriminate].
Qed.

(** With every token accepted under [table], a larger table gives the
    same parse. *)
Lemma parse_table_agree (hp0 : heap) (sri : string)
    (table table' : gmap string HashFunc) :
  table ⊆ table' ->
  firstError table (strings.Fields sri) = None ->
  NewCheckerForHashes hp0 sri table' = NewCheckerForHashes hp0 sri table.
Proof.
  intros Hsub Hfe. unfold NewCheckerForHashes.
  rewrite (fieldsLoop_table_agree table table'); [reflexivity |].
  intros name Hin.
  destruct (firstError_None_names _ _ _ Hfe Hin) as [f Hf].
  rewrite Hf. symmetry. eapply lookup_weaken; eassumption.
Qed.

(** X7.  Adding algorithms to the table never breaks a descriptor: a
    parse that succeeds with a table returns the very same store and
    [Checker] with any larger table. *)
Theorem table_extension (hp0 : heap) (sri : string)
    (table table' : gmap string HashFunc) (hp : heap) (c : Checker) :
  table ⊆ table' ->
  NewCheckerForHashes hp0 sri table = Ok (hp, c) ->
  NewCheckerForHashes hp0 sri table' = Ok (hp, c).
Proof.
  intros Hsub Hok.
  pose proof (NewCheckerForHashes_built _ _ _ _ _ Hok) as [Hp _].
  unfold parseError in Hp.
  destruct (firstError table (strings.Fields sri)) eqn:Hfe; [discriminate |].
  rewrite (parse_table_agree _ _ _ _ Hsub Hfe). exact Hok.
Qed.

Lemma table_extension_witness :
  NewCheckerForHashes [] toySri
    (<["t9" := mkHashFunc 9 (toySum 9)]> toyTable)
  = Ok (toyState.1, toyState.2).
Proof.
  apply (table_extension [] toySri toyTable).
  - apply insert_subseteq. vm_compute. reflexivity.
  - vm_compute. reflexivity.
Defined.

Lemma tokenError_insert_fresh (table : gmap string HashFunc) (k : string)
    (g : HashFunc) (t : string) :
  table !! k = None ->
  tokenError table t <> Some (ErrUnknownHash k) ->
  tokenError (<[k := g]> table) t = tokenError table t.
Proof.
  unfold tokenError. intros Hk.
  destruct (splitField t) as [[name value]|]; [| reflexivity].
  destruct (decide (k = name)) as [<- | Hne].
  - rewrite Hk. intros H. contradiction.
  - intros _. rewrite lookup_insert_ne by exact Hne. reflexivity.
Qed.

Lemma firstError_insert_fresh (table : gmap string HashFunc) (k : string)
    (g : HashFunc) (toks : list string) (e : error) :
  table !! k = None ->
  firstError table toks = Some e ->
  e <> ErrUnknownHash k ->
  firstError (<[k := g]> table) toks = Some e.
Proof.
  intros Hk. induction toks as [|t toks IH]; simpl; [discriminate |].
  intros Hfe Hne.
  destruct (tokenError table t) as [e'|] eqn:Ht.
  - injection Hfe as ->.
    rewrite tokenError_insert_fresh, Ht; [reflexivity | exact Hk |].
    rewrite Ht. intros [= He]. contradiction.
  - rewrite tokenError_insert_fresh, Ht; [auto | exact Hk |].
    rewrite Ht. discriminate.
Qed.

Lemma defaultHashes_sha1
    (sha256_sum sha384_sum sha512_sum : list byte -> list byte) :
  defaultHashes sha256_sum sha384_sum sha512_sum !! "sha1" = None.
Proof.
  unfold defaultHashes.
  rewrite !lookup_insert_ne by discriminate. apply lookup_empty.
Qed.

(** X8.  [NewCheckerWithSHA1] extends [NewChecker]: a descriptor that
    [NewChecker] accepts is accepted with the same result, and one that
    [NewChecker] refuses for any reason other than the unknown algorithm
    [sha1] is refused with the same error. *)
Theorem NewCheckerWithSHA1_extends
    (sha1_sum sha256_sum sha384_sum sha512_sum : list byte -> list byte)
    (hp0 : heap) (sri : string) :
  (forall st,
     NewChecker sha256_sum sha384_sum sha512_sum hp0 sri = Ok st ->
     NewCheckerWithSHA1 sha1_sum sha256_sum sha384_sum sha512_sum hp0 sri
     = Ok st) /\
  (forall e,
     NewChecker sha256_sum sha384_sum sha512_sum hp0 sri = Err e ->
     e <> ErrUnknownHash "sha1" ->
     NewCheckerWithSHA1 sha1_sum sha256_sum sha384_sum sha512_sum hp0 sri
     = Err e).
Proof.
  unfold NewChecker, NewCheckerWithSHA1, sha1Hashes.
  pose proof (defaultHashes_sha1 sha256_sum sha384_sum sha512_sum) as Hk.
  split.
  - intros [hp c] Hok.
    pose proof (NewCheckerForHashes_built _ _ _ _ _ Hok) as [Hp _].
    unfold parseError in Hp.
    destruct (firstError (defaultHashes sha256_sum sha384_sum sha512_sum)
                (strings.Fields sri)) eqn:Hfe; [discriminate |].
    rewrite (parse_table_agree _ _ _ _ (insert_subseteq _ _ _ Hk) Hfe).
    exact Hok.
  - intros e Herr Hne.
    pose proof (NewCheckerForHashes_spec hp0 sri
                  (defaultHashes sha256_sum sha384_sum sha512_sum)) as Hd.
    pose proof (NewCheckerForHashes_spec hp0 sri
                  (<["sha1" := sha1_New sha1_sum]>
                     (defaultHashes sha256_sum sha384_sum sha512_sum))) as Hs.
    unfold parseError in Hd, Hs.
    destruct (firstError (defaultHashes sha256_sum sha384_sum sha512_sum)
                (strings.Fields sri)) as [e'|] eqn:Hfe.
    + rewrite Hd in Herr. injection Herr as ->.
      rewrite (firstError_insert_fresh _ _ _ _ _ Hk Hfe Hne) in Hs. exact Hs.
    + destruct (strings.Fields sri) as [|t toks].
      * rewrite Hd in Herr. injection Herr as <-. exact Hs.
      * destruct Hd as [hp [c [Hd _]]]. rewrite Hd in Herr. discriminate.
Qed.

Lemma NewCheckerWithSHA1_extends_witness :
  NewCheckerWithSHA1 (toySum 20) (toySum 32) (toySum 48) (toySum 64) []
    "sha256-wibblewibblewibble"
  = Err (ErrBase64 16).
Proof.
  apply (proj2 (NewCheckerWithSHA1_extends (toySum 20) (toySum 32)
                  (toySum 48) (toySum 64) [] "sha256-wibblewibblewibble")).
  - vm_compute. reflexivity.
  - discriminate.
Defined.

(** ** The expected values *)

Lemma hex_digit_lower (n : N) : isLowerHex (hex.digit n) = true.
Proof.
  unfold hex.digit. generalize (N.to_nat n) as k. intros k.
  do 16 (destruct k as [|k]; [reflexivity |]). reflexivity.
Qed.

Lemma hex_length (b : list byte) :
  String.length (hex.EncodeToString b) = 2 * length b.
Proof. induction b as [|x b IH]; simpl; [reflexivity | rewrite IH; lia]. Qed.

Lemma hex_lower (b : list byte) :
  allChars isLowerHex (hex.EncodeToString b) = true.
Proof.
  induction b as [|x b IH]; simpl; [reflexivity |].
  rewrite !hex_digit_lower, IH. reflexivity.
Qed.

(** X9.  The comment in [toHex], that the values are known to be valid
    because [validateHash] checked them, holds: after a successful parse
    every expected value of a name decodes without error to exactly as
    many bytes as the output size of the table's algorithm for that
    name. *)
Theorem Expected_values_valid (hp0 : heap) (sri : string)
    (table : gmap string HashFunc) (hp : heap) (c : Checker)
    (name v : string) :
  NewCheckerForHashes hp0 sri table = Ok (hp, c) ->
  v ∈ Expected c name ->
  exists f raw,
    table !! name = Some f /\
    base64.DecodeString v = (raw, None) /\
    length raw = hashSize f.
Proof.
  intros Hok Hv. apply NewCheckerForHashes_built in Hok as [_ Hb].
  exact (expected_valid _ _ _ _ _ _ _ _ Hb Hv).
Qed.

Lemma Expected_values_valid_witness :
  exists f raw,
    toyTable !! "t3" = Some f /\
    base64.DecodeString "AAAA" = (raw, None) /\
    length raw = hashSize f.
Proof.
  apply (Expected_values_valid [] toySri toyTable toyState.1 toyState.2).
  - vm_compute. reflexivity.
  - vm_compute. right. left.
Defined.

(** X10.  After a successful parse [toHex] of the expected values of a
    name, the hex form [Check] prints, has one entry per expected value,
    and every entry is made of twice as many lowercase hex digits as the
    algorithm of that name has output bytes. *)
Theorem toHex_shape (hp0 : heap) (sri : string)
    (table : gmap string HashFunc) (hp : heap) (c : Checker)
    (name : string) :
  NewCheckerForHashes hp0 sri table = Ok (hp, c) ->
  length (toHex (Expected c name)) = length (Expected c name) /\
  forall h, h ∈ toHex (Expected c name) ->
    allChars isLowerHex h = true /\
    exists f, table !! name = Some f /\ String.length h = 2 * hashSize f.
Proof.
  intros Hok. apply NewCheckerForHashes_built in Hok as [_ Hb].
  rewrite toHex_map.
  split; [apply length_fmap |].
  intros h Hh. apply list_elem_of_fmap in Hh as [v [-> Hv]].
  split; [apply hex_lower |].
  destruct (expected_valid _ _ _ _ _ _ _ _ Hb Hv) as [f [raw [Hf [Hd Hl]]]].
  exists f. split; [exact Hf |]. rewrite Hd. simpl.
  rewrite hex_length, Hl. reflexivity.
Qed.

Lemma toHex_shape_witness :
  length (toHex (Expected toyState.2 "t3"))
  = length (Expected toyState.2 "t3") /\
  forall h, h ∈ toHex (Expected toyState.2 "t3") ->
    allChars isLowerHex h = true /\
    exists f, toyTable !! "t3" = Some f /\ String.length h = 2 * hashSize f.
Proof.
  apply (toHex_shape [] toySri toyTable toyState.1 toyState.2).
  vm_compute. reflexivity.
Defined.

(** ** The shape of accepted tokens *)

Lemma allChars_append (p : ascii -> bool) (s t : string) :
  allChars p (s +:+ t) = allChars p s && allChars p t.
Proof.
  induction s as [|c s IH]; rewrite ?append_String, ?append_empty; simpl;
    [reflexivity |].
  rewrite IH, andb_assoc. reflexivity.
Qed.

Lemma allChars_impl (p q : ascii -> bool) (s : string) :
  (forall c, p c = true -> q c = true) ->
  allChars p s = true -> allChars q s = true.
Proof.
  intros Hpq. induction s as [|c s IH]; simpl; [reflexivity |].
  intros H. apply andb_true_iff in H as [Hc Hs].
  rewrite (Hpq _ Hc), (IH Hs). reflexivity.
Qed.

Lemma spaceWidth_0_head (c : ascii) (r : string) :
  strings.spaceWidth (String c r) = 0 -> strings.asciiSpace c = false.
Proof.
  unfold strings.spaceWidth.
  destruct (strings.asciiSpace c); [discriminate | reflexivity].
Qed.

(** The fields are not empty and hold no ASCII white space. *)
Lemma fieldsFrom_tokens (s : string) (skip : nat) (cur : option string) :
  (forall f, cur = Some f ->
     f <> "" /\ allChars (fun c => negb (strings.asciiSpace c)) f = true) ->
  Forall (fun t => t <> "" /\
                   allChars (fun c => negb (strings.asciiSpace c)) t = true)
         (strings.fieldsFrom skip cur s).
Proof.
  revert skip cur.
  induction s as [|c r IH]; intros skip cur Hcur; cbn [strings.fieldsFrom].
  - destruct cur as [f|]; simpl; [| constructor].
    constructor; [apply Hcur; reflexivity | constructor].
  - destruct skip as [|k]; [| apply IH; exact Hcur].
    destruct (strings.spaceWidth (String c r)) as [|w] eqn:Hw.
    + apply IH. intros f Hf. apply spaceWidth_0_head in Hw.
      destruct cur as [g|]; simpl in Hf; injection Hf as <-.
      * destruct (Hcur g eq_refl) as [Hne Hg]. split.
        { destruct g; discriminate. }
        rewrite allChars_append, Hg. simpl. rewrite Hw. reflexivity.
      * split; [discriminate |]. simpl. rewrite Hw. reflexivity.
    + apply Forall_app. split.
      * destruct cur as [f|]; simpl; [| constructor].
        constructor; [apply Hcur; reflexivity | constructor].
      * apply IH. discriminate.
Qed.

Lemma Fields_tokens (s : string) :
  Forall (fun t => t <> "" /\
                   allChars (fun c => negb (strings.asciiSpace c)) t = true)
         (strings.Fields s).
Proof. apply fieldsFrom_tokens. discriminate. Qed.

(** A value that decodes without error is made of characters of the
    alphabet, padding and newlines. *)
Lemma decode_chars (src : string) (si : nat) (m : base64.mode)
    (dst : list byte) :
  (base64.decode src si m dst).2 = None ->
  allChars (fun c => isBase64Char c || base64.isNewline c) src = true.
Proof.
  revert si m dst.
  induction src as [|c rest IH]; intros si m dst; [reflexivity |].
  cbn [base64.decode allChars]. unfold isBase64Char.
  destruct m as [j dbuf | dbuf | dlen dbuf].
  - destruct (base64.decodeMap c) as [out|].
    + simpl. destruct (j =? 3)%nat; apply IH.
    + destruct (base64.isNewline c) eqn:Hn.
      * rewrite orb_true_r. simpl. apply IH.
      * destruct (Ascii.eqb c base64.padChar) eqn:Hp; simpl;
          [| discriminate].
        destruct j as [|[|[|j]]]; try discriminate; apply IH.
  - destruct (base64.isNewline c) eqn:Hn.
    + rewrite orb_true_r. simpl. apply IH.
    + destruct (Ascii.eqb c base64.padChar) eqn:Hp; simpl; [| discriminate].
      intros H. apply IH in H.
      destruct (base64.decodeMap c); simpl; exact H.
  - destruct (base64.isNewline c) eqn:Hn; [| discriminate].
    rewrite orb_true_r. simpl. apply IH.
Qed.

Lemma emit_length (dlen : nat) (dbuf : list N) :
  length (base64.emit dlen dbuf) = Nat.min (dlen - 1) 3.
Proof. unfold base64.emit. rewrite length_take. simpl. lia. Qed.

(** The lengths of a value without newlines that decodes without error:
    [q] quanta of four characters, the last one with [p] padding
    characters. *)
Lemma decode_length (src : string) (si : nat) (m : base64.mode)
    (dst : list byte) (out : list byte) :
  allChars (fun c => negb (base64.isNewline c)) src = true ->
  base64.decode src si m dst = (out, None) ->
  match m with
  | base64.Quantum j _ =>
      j <= 3 ->
      exists q p,
        j + String.length src = 4 * q /\ p <= 2 /\ (q = 0 -> p = 0) /\
        length out + p = length dst + 3 * q
  | base64.Pad2 dbuf =>
      String.length src = 1 /\ out = dst ++ base64.emit 2 dbuf
  | base64.Trail dlen dbuf =>
      String.length src = 0 /\ out = dst ++ base64.emit dlen dbuf
  end.
Proof.
  revert si m dst.
  induction src as [|c rest IH]; intros si m dst Hnl Hd.
  - simpl in Hd. destruct m as [j dbuf | dbuf | dlen dbuf].
    + intros _. destruct j; [| discriminate]. injection Hd as <-.
      exists 0, 0. simpl. split; [reflexivity |]. split; [lia |].
      split; [reflexivity | lia].
    + discriminate.
    + injection Hd as <-. split; reflexivity.
  - cbn [allChars] in Hnl. apply andb_true_iff in Hnl as [Hc Hnl].
    apply negb_true_iff in Hc.
    cbn [base64.decode] in Hd. rewrite Hc in Hd.
    destruct m as [j dbuf | dbuf | dlen dbuf].
    + intros Hj. destruct (base64.decodeMap c) as [v|].
      * destruct (Nat.eqb_spec j 3) as [-> | Hj3].
        -- specialize (IH _ _ _ Hnl Hd). simpl in IH.
           destruct IH as [q [p [Hq [Hp [Hq0 Hlen]]]]]; [lia |].
           rewrite length_app, emit_length in Hlen. simpl in Hlen.
           exists (S q), p. simpl. repeat split; try lia.
        -- specialize (IH _ _ _ Hnl Hd). simpl in IH.
           destruct IH as [q [p [Hq [Hp [Hq0 Hlen]]]]]; [lia |].
           exists q, p. simpl. repeat split; try lia.
      * destruct (Ascii.eqb c base64.padChar); simpl in Hd; [| discriminate].
        destruct j as [|[|[|j]]]; try discriminate.
        -- specialize (IH _ _ _ Hnl Hd). simpl in IH.
           destruct IH as [Hl ->].
           destruct rest as [|c2 rest2]; [discriminate |].
           exists 1, 2. rewrite length_app, emit_length. simpl in *.
           repeat split; try lia.
        -- specialize (IH _ _ _ Hnl Hd). simpl in IH.
           destruct IH as [Hl ->].
           exists 1, 1. rewrite length_app, emit_length. simpl in *.
           repeat split; try lia.
    + destruct (Ascii.eqb c base64.padChar); simpl in Hd; [| discriminate].
      specialize (IH _ _ _ Hnl Hd). simpl in IH. destruct IH as [Hl ->].
      split; [simpl; lia | reflexivity].
    + discriminate.
Qed.

Lemma allChars_and (p q : ascii -> bool) (s : string) :
  allChars p s = true -> allChars q s = true ->
  allChars (fun c => p c && q c) s = true.
Proof.
  induction s as [|c s IH]; simpl; [reflexivity |].
  intros Hp Hq. apply andb_true_iff in Hp as [Hp1 Hp2].
  apply andb_true_iff in Hq as [Hq1 Hq2].
  rewrite Hp1, Hq1, IH by assumption. reflexivity.
Qed.

Lemma isNewline_asciiSpace (c : ascii) :
  base64.isNewline c = true -> strings.asciiSpace c = true.
Proof.
  unfold base64.isNewline, strings.asciiSpace. intros H.
  apply orb_true_iff in H as [H | H]; apply N.eqb_eq in H; rewrite H;
    reflexivity.
Qed.

(** The shape of the values kept by a constructed [Checker]. *)
Lemma expected_shape (hp0 : heap) (sri : string)
    (table : gmap string HashFunc) (data : list byte) (hp : heap)
    (c : Checker) (name v : string) :
  built hp0 table (strings.Fields sri) data hp c ->
  v ∈ Expected c name ->
  strings.IndexByte name "-"%char = (-1)%Z /\
  allChars isBase64Char v = true /\
  exists f,
    table !! name = Some f /\
    String.length v = 4 * ((hashSize f + 2) / 3).
Proof.
  intros Hb Hv.
  destruct (expected_valid _ _ _ _ _ _ _ _ Hb Hv) as [f [raw [Hf [Hd Hl]]]].
  destruct Hb as [writers [Hwf _]]. unfold Expected in Hv.
  rewrite (wf_expected _ _ _ _ _ _ _ Hwf) in Hv.
  apply valuesFor_elem in Hv as [t [Ht Hs]].
  apply splitField_inv in Hs as [Heq Hname].
  pose proof (Fields_tokens sri) as Htok. rewrite Forall_forall in Htok.
  destruct (Htok t Ht) as [_ Hsp]. rewrite Heq, allChars_append in Hsp.
  apply andb_true_iff in Hsp as [_ Hsp]. simpl in Hsp.
  assert (Hnl : allChars (fun c => negb (base64.isNewline c)) v = true).
  { eapply allChars_impl; [| exact Hsp]. intros ch Hch.
    apply negb_true_iff in Hch. apply negb_true_iff.
    destruct (base64.isNewline ch) eqn:Hn; [| reflexivity].
    apply isNewline_asciiSpace in Hn. congruence. }
  split; [exact Hname |]. split.
  - assert (Hch : (base64.decode v 0 (base64.Quantum 0 []) []).2 = None).
    { unfold base64.DecodeString in Hd. rewrite Hd. reflexivity. }
    apply decode_chars in Hch.
    pose proof (allChars_and _ _ _ Hch Hnl) as Hboth.
    eapply allChars_impl; [| exact Hboth]. intros ch Hc. simpl in Hc.
    destruct (isBase64Char ch); [reflexivity |].
    destruct (base64.isNewline ch); discriminate.
  - exists f. split; [exact Hf |].
    pose proof (decode_length v 0 (base64.Quantum 0 []) [] raw Hnl Hd) as Hq.
    destruct Hq as [q [p [Hq [Hp [Hq0 Hlen]]]]]; [lia |].
    change (length (@nil byte)) with 0 in Hlen.
    assert (Hv4 : String.length v = 4 * q) by lia.
    rewrite Hv4. f_equal.
    apply (Nat.div_unique _ 3 q (2 - p)); lia.
Qed.

(** X11.  After a successful parse every expected value of a name is
    canonical in shape: it consists of characters of the standard base64
    alphabet and padding only, and its length is four characters for
    every three bytes, or part of three bytes, of the algorithm's output
    size; the name itself contains no ['-']. *)
Theorem Expected_values_shape (hp0 : heap) (sri : string)
    (table : gmap string HashFunc) (hp : heap) (c : Checker)
    (name v : string) :
  NewCheckerForHashes hp0 sri table = Ok (hp, c) ->
  v ∈ Expected c name ->
  strings.IndexByte name "-"%char = (-1)%Z /\
  allChars isBase64Char v = true /\
  exists f,
    table !! name = Some f /\
    String.length v = 4 * ((hashSize f + 2) / 3).
Proof.
  intros Hok Hv. apply NewCheckerForHashes_built in Hok as [_ Hb].
  exact (expected_shape _ _ _ _ _ _ _ _ Hb Hv).
Qed.

Lemma Expected_values_shape_witness :
  strings.IndexByte "t6" "-"%char = (-1)%Z /\
  allChars isBase64Char "w8PDw8PD" = true /\
  exists f,
    toyTable !! "t6" = Some f /\
    String.length "w8PDw8PD" = 4 * ((hashSize f + 2) / 3).
Proof.
  apply (Expected_values_shape [] toySri toyTable toyState.1 toyState.2).
  - vm_compute. reflexivity.
  - vm_compute. left.
Defined.

(** ** Base64: decoding what was encoded *)

Lemma testbit_shiftl (a k m : N) :
  N.testbit (N.shiftl a k) m = (k <=? m)%N && N.testbit a (m - k).
Proof.
  destruct (N.leb_spec k m).
  - rewrite N.shiftl_spec_high' by assumption. reflexivity.
  - rewrite N.shiftl_spec_low by assumption. reflexivity.
Qed.

Lemma testbit_63 (m : N) : N.testbit 63 m = (m <? 6)%N.
Proof.
  change 63%N with (N.ones 6).
  destruct (N.ltb_spec m 6); [apply N.ones_spec_low | apply N.ones_spec_high];
    lia.
Qed.

Lemma testbit_255 (m : N) : N.testbit 255 m = (m <? 8)%N.
Proof.
  change 255%N with (N.ones 8).
  destruct (N.ltb_spec m 8); [apply N.ones_spec_low | apply N.ones_spec_high];
    lia.
Qed.

Lemma N_of_byte_high (x : byte) (m : N) :
  (8 <= m)%N -> N.testbit (N_of_byte x) m = false.
Proof.
  intros Hm. unfold N_of_byte.
  pose proof (Byte.to_N_bounded x) as Hb.
  destruct (N.eq_dec (Byte.to_N x) 0%N) as [-> | Hne]; [apply N.bits_0 |].
  apply N.bits_above_log2.
  assert (H : (N.log2 (Byte.to_N x) <= N.log2 255)%N)
    by (apply N.log2_le_mono; lia).
  change (N.log2 255) with 7%N in H. lia.
Qed.

Lemma ascii_of_N_land (n : N) : ascii_of_N (N.land n 255) = ascii_of_N n.
Proof.
  destruct n as [|p]; [reflexivity |].
  do 8 (destruct p as [p|p|]; try reflexivity).
Qed.

Lemma byte_of_N_of_byte (x : byte) : byte_of_N (N_of_byte x) = x.
Proof.
  unfold byte_of_N, N_of_byte. rewrite <- ascii_of_byte_via_N.
  apply byte_of_ascii_of_byte.
Qed.

Lemma byte_of_N_eq (n : N) (x : byte) :
  N.land n 255 = N_of_byte x -> byte_of_N n = x.
Proof.
  intros H. unfold byte_of_N. rewrite <- ascii_of_N_land, H.
  apply byte_of_N_of_byte.
Qed.

Ltac bits_norm :=
  repeat first
    [ rewrite N.lor_spec | rewrite N.land_spec | rewrite N.shiftr_spec'
    | rewrite testbit_shiftl | rewrite testbit_63 | rewrite testbit_255
    | rewrite N.bits_0 ].

Ltac bits_cases :=
  repeat match goal with
    | |- context [(?x <=? ?y)%N] => destruct (N.leb_spec x y); try lia
    | |- context [(?x <? ?y)%N] => destruct (N.ltb_spec x y); try lia
    end.

Ltac bits_atoms n :=
  repeat match goal with
    | |- context [N.testbit (N_of_byte ?x) ?e] =>
        lazymatch e with
        | n => fail
        | _ => first [ rewrite (N_of_byte_high x e) by lia
                     | replace e with n by lia ]
        end
    end.

Ltac bits_finish n :=
  try rewrite (N_of_byte_high _ n) by lia;
  repeat match goal with
    | |- context [N.testbit ?x ?e] => destruct (N.testbit x e)
    end;
  reflexivity.

Ltac bits_solve :=
  apply byte_of_N_eq; apply N.bits_inj; intros n;
  bits_norm; bits_cases; bits_atoms n; bits_finish n.

Lemma group3_byte0 (a b c : byte) :
  let v := group (N_of_byte a) (N_of_byte b) (N_of_byte c) in
  byte_of_N (N.shiftr (quantum (sextet v 18) (sextet v 12) (sextet v 6)
                         (N.land v 63)) 16) = a.
Proof. unfold group, sextet, quantum. cbv zeta. bits_solve. Qed.

Lemma group3_byte1 (a b c : byte) :
  let v := group (N_of_byte a) (N_of_byte b) (N_of_byte c) in
  byte_of_N (N.shiftr (quantum (sextet v 18) (sextet v 12) (sextet v 6)
                         (N.land v 63)) 8) = b.
Proof. unfold group, sextet, quantum. cbv zeta. bits_solve. Qed.

Lemma group3_byte2 (a b c : byte) :
  let v := group (N_of_byte a) (N_of_byte b) (N_of_byte c) in
  byte_of_N (quantum (sextet v 18) (sextet v 12) (sextet v 6)
               (N.land v 63)) = c.
Proof. unfold group, sextet, quantum. cbv zeta. bits_solve. Qed.

Lemma group2_byte0 (a b : byte) :
  let v := N.lor (N.shiftl (N_of_byte a) 16) (N.shiftl (N_of_byte b) 8) in
  byte_of_N (N.shiftr (quantum (sextet v 18) (sextet v 12) (sextet v 6) 0) 16)
  = a.
Proof. unfold sextet, quantum. cbv zeta. bits_solve. Qed.

Lemma group2_byte1 (a b : byte) :
  let v := N.lor (N.shiftl (N_of_byte a) 16) (N.shiftl (N_of_byte b) 8) in
  byte_of_N (N.shiftr (quantum (sextet v 18) (sextet v 12) (sextet v 6) 0) 8)
  = b.
Proof. unfold sextet, quantum. cbv zeta. bits_solve. Qed.

Lemma group1_byte0 (a : byte) :
  let v := N.shiftl (N_of_byte a) 16 in
  byte_of_N (N.shiftr (quantum (sextet v 18) (sextet v 12) 0 0) 16) = a.
Proof. unfold sextet, quantum. cbv zeta. bits_solve. Qed.

Lemma enc_land (n : N) : base64.enc (N.land n 63) = base64.enc n.
Proof.
  unfold base64.enc. rewrite <- N.land_assoc. reflexivity.
Qed.

Lemma decodeMap_enc (n : N) :
  base64.decodeMap (base64.enc n) = Some (N.land n 63).
Proof.
  rewrite <- enc_land.
  assert (Hlt : (N.land n 63 < 64)%N).
  { change 63%N with (N.ones 6). rewrite N.land_ones.
    apply N.mod_lt. discriminate. }
  rewrite <- (N2Nat.id (N.land n 63)).
  assert (Hk : N.to_nat (N.land n 63) < 64) by lia.
  revert Hk. generalize (N.to_nat (N.land n 63)). intros k Hk.
  do 64 (destruct k as [|k]; [reflexivity |]). lia.
Qed.

Lemma decodeMap_pad : base64.decodeMap base64.padChar = None.
Proof. reflexivity. Qed.

Lemma decode_alpha (c : ascii) (out : N) (rest : string) (si j : nat)
    (dbuf : list N) (dst : list byte) :
  base64.decodeMap c = Some out ->
  base64.decode (String c rest) si (base64.Quantum j dbuf) dst
  = if (j =? 3)%nat
    then base64.decode rest (S si) (base64.Quantum 0 [])
           (dst ++ base64.emit 4 (dbuf ++ [out]))
    else base64.decode rest (S si) (base64.Quantum (S j) (dbuf ++ [out])) dst.
Proof. intros H. cbn [base64.decode]. rewrite H. reflexivity. Qed.

Lemma decode_encode (b : list byte) (si : nat) (dst : list byte) :
  base64.decode (base64.EncodeToString b) si (base64.Quantum 0 []) dst
  = (dst ++ b, None).
Proof.
  remember (length b) as n eqn:Hn. revert b si dst Hn.
  induction n as [n IH] using lt_wf_ind. intros b si dst Hn.
  destruct b as [|x [|y [|z rest]]].
  - simpl. rewrite app_nil_r. reflexivity.
  - cbn [base64.EncodeToString]. cbv zeta.
    rewrite (decode_alpha _ _ _ _ _ _ _ (decodeMap_enc _)). cbn [Nat.eqb].
    rewrite (decode_alpha _ _ _ _ _ _ _ (decodeMap_enc _)). cbn [Nat.eqb].
    cbn [base64.decode]. rewrite decodeMap_pad. simpl.
    unfold base64.emit. cbn [nth take Nat.sub].
    do 2 f_equal. f_equal. exact (group1_byte0 x).
  - cbn [base64.EncodeToString]. cbv zeta.
    rewrite (decode_alpha _ _ _ _ _ _ _ (decodeMap_enc _)). cbn [Nat.eqb].
    rewrite (decode_alpha _ _ _ _ _ _ _ (decodeMap_enc _)). cbn [Nat.eqb].
    rewrite (decode_alpha _ _ _ _ _ _ _ (decodeMap_enc _)). cbn [Nat.eqb].
    cbn [base64.decode]. rewrite decodeMap_pad. simpl.
    unfold base64.emit. cbn [nth take Nat.sub].
    do 2 f_equal. f_equal; [exact (group2_byte0 x y) |].
    f_equal. exact (group2_byte1 x y).
  - cbn [base64.EncodeToString]. cbv zeta.
    rewrite (decode_alpha _ _ _ _ _ _ _ (decodeMap_enc _)). cbn [Nat.eqb].
    rewrite (decode_alpha _ _ _ _ _ _ _ (decodeMap_enc _)). cbn [Nat.eqb].
    rewrite (decode_alpha _ _ _ _ _ _ _ (decodeMap_enc _)). cbn [Nat.eqb].
    rewrite (decode_alpha _ _ _ _ _ _ _ (decodeMap_enc _)). cbn [Nat.eqb].
    rewrite (IH (length rest)); [| subst n; simpl; lia | reflexivity].
    f_equal. rewrite <- app_assoc. f_equal.
    unfold base64.emit. cbn [nth take Nat.sub app].
    f_equal; [exact (group3_byte0 x y z) |].
    f_equal; [exact (group3_byte1 x y z) |].
    f_equal. exact (group3_byte2 x y z).
Qed.

Lemma DecodeString_EncodeToString (b : list byte) :
  base64.DecodeString (base64.EncodeToString b) = (b, None).
Proof. unfold base64.DecodeString. apply (decode_encode b 0 []). Qed.

Lemma EncodeToString_inj (x y : list byte) :
  base64.EncodeToString x = base64.EncodeToString y -> x = y.
Proof.
  intros H. pose proof (DecodeString_EncodeToString x) as Hx.
  rewrite H, DecodeString_EncodeToString in Hx. congruence.
Qed.

(** X12.  What [Check] compares with always passes [validateHash]: the
    base64 encoding of any byte sequence as long as the output size of an
    accumulator is a valid value for it, and [toHex] turns it into the
    hex encoding of the same bytes. *)
Theorem validateHash_accepts_encoding (hp : heap) (h : addr)
    (hh : hash.Hash) (name : string) (digest : list byte) :
  hp !! h = Some hh ->
  length digest = hash.Size hh ->
  validateHash hp h name (base64.EncodeToString digest) = Ok tt /\
  toHex [base64.EncodeToString digest] = [hex.EncodeToString digest].
Proof.
  intros Hh Hl. split.
  - rewrite (validateHash_spec _ _ _ _ _ Hh). unfold valueError.
    rewrite DecodeString_EncodeToString.
    destruct (decide (length digest ≠ hash.Size hh)); [contradiction |].
    reflexivity.
  - rewrite toHex_map. simpl. rewrite DecodeString_EncodeToString.
    reflexivity.
Qed.

Lemma validateHash_accepts_encoding_witness :
  validateHash toyState.1 0 "t3" (base64.EncodeToString (toySum 3 []))
  = Ok tt /\
  toHex [base64.EncodeToString (toySum 3 [])]
  = [hex.EncodeToString (toySum 3 [])].
Proof.
  apply (validateHash_accepts_encoding toyState.1 0
           (newHash (mkHashFunc 3 (toySum 3))) "t3" (toySum 3 []));
    vm_compute; reflexivity.
Defined.

(** X13.  A descriptor with the single token [name-v], where [v] is the
    base64 encoding of the digest of [data] by the table's algorithm for
    [name], is accepted when that digest has the algorithm's output
    size; and then, whatever is written and however it is sliced,
    [Check] returns nil exactly when the written bytes have the same
    digest as [data]. *)
Theorem true_digest_verifies (hp0 : heap) (sri : string)
    (table : gmap string HashFunc) (name : string) (f : HashFunc)
    (data : list byte) :
  strings.Fields sri
  = [name +:+ String "-"%char
       (base64.EncodeToString (hashDigest f data))] ->
  strings.IndexByte name "-"%char = (-1)%Z ->
  table !! name = Some f ->
  length (hashDigest f data) = hashSize f ->
  exists hp c,
    NewCheckerForHashes hp0 sri table = Ok (hp, c) /\
    forall bs, exists hp',
      WriteAll hp c bs = Some hp' /\
      (Check hp' c = Some None <->
       hashDigest f (concat bs) = hashDigest f data).
Proof.
  intros Hf Hn Ht Hl.
  assert (Hs : splitField (name +:+ String "-"%char
                  (base64.EncodeToString (hashDigest f data)))
               = Some (name, base64.EncodeToString (hashDigest f data)))
    by (apply splitField_app; exact Hn).
  pose proof (NewCheckerForHashes_spec hp0 sri table) as Hspec.
  unfold parseError in Hspec. rewrite Hf in Hspec. simpl in Hspec.
  unfold tokenError, valueError in Hspec.
  rewrite Hs, Ht, DecodeString_EncodeToString in Hspec.
  destruct (decide (length (hashDigest f data) ≠ hashSize f)) as [Hne | _];
    [contradiction |].
  destruct Hspec as [hp [c [Hok Hb]]]. exists hp, c. split; [exact Hok |].
  intros bs. destruct (WriteAll_built _ _ _ bs _ _ _ Hb) as [hp' [Hw Hb']].
  exists hp'. split; [exact Hw |]. simpl in Hb'.
  destruct (CheckIn_built _ _ _ _ _ _ (map_to_list (hashes c)) Hb')
    as [r [Hr Hiff]]; [reflexivity |].
  unfold Check. rewrite Hr.
  destruct Hb' as [writers [Hwf _]].
  assert (Hexp : Expected c name
                 = [base64.EncodeToString (hashDigest f data)]).
  { unfold Expected. rewrite (wf_expected _ _ _ _ _ _ _ Hwf).
    unfold valuesFor. simpl. rewrite Hs. rewrite filter_cons. simpl.
    destruct (decide (name = name)); [reflexivity | contradiction]. }
  assert (Hnames : forall n, is_Some (hashes c !! n) -> n = name).
  { intros n Hin. apply (wf_names _ _ _ _ _ _ _ Hwf) in Hin.
    unfold fieldNames in Hin. simpl in Hin. rewrite Hs in Hin.
    apply list_elem_of_singleton in Hin. exact Hin. }
  split.
  - intros [= ->].
    assert (His : is_Some (hashes c !! name)).
    { apply (wf_names _ _ _ _ _ _ _ Hwf). unfold fieldNames. simpl.
      rewrite Hs. left. }
    destruct His as [a Ha].
    destruct (proj1 Hiff eq_refl name a Ha) as [g [Hg Hin]].
    assert (g = f) as -> by congruence.
    rewrite Hexp in Hin. apply list_elem_of_singleton in Hin.
    apply EncodeToString_inj. exact Hin.
  - intros Heq. f_equal. apply Hiff. intros n a Ha.
    assert (n = name) as -> by (apply Hnames; eauto).
    exists f. split; [exact Ht |]. rewrite Hexp, Heq. left.
Qed.

Lemma true_digest_verifies_witness :
  exists hp c,
    NewCheckerForHashes [] "t3-w8PD" toyTable = Ok (hp, c) /\
    forall bs, exists hp',
      WriteAll hp c bs = Some hp' /\
      (Check hp' c = Some None <->
       toySum 3 (concat bs) = toySum 3 (bytes_of_string "ab")).
Proof.
  apply (true_digest_verifies [] "t3-w8PD" toyTable "t3"
           (mkHashFunc 3 (toySum 3)) (bytes_of_string "ab"));
    vm_compute; reflexivity.
Defined.

(** X14.  A value with a character outside the standard base64 alphabet
    and padding, such as the ['-'] and ['_'] of the URL-safe alphabet or
    a second ['-'] in the token, is refused as invalid base64, whatever
    its length: when the first defective token of a descriptor has a
    known name and such a value, the parse fails with the
    invalid-encoding error. *)
Theorem stray_character_rejected (hp0 : heap) (sri : string)
    (table : gmap string HashFunc) (pre post : list string)
    (tok name value : string) (f : HashFunc) :
  strings.Fields sri = pre ++ tok :: post ->
  firstError table pre = None ->
  splitField tok = Some (name, value) ->
  table !! name = Some f ->
  allChars isBase64Char value = false ->
  exists off, NewCheckerForHashes hp0 sri table = Err (ErrBase64 off).
Proof.
  intros Hf Hpre Hs Ht Hbad.
  pose proof (Fields_tokens sri) as Htok. rewrite Forall_forall in Htok.
  destruct (Htok tok) as [_ Hsp].
  { rewrite Hf. apply elem_of_app. right. left. }
  destruct (splitField_inv _ _ _ Hs) as [Heq _].
  rewrite Heq, allChars_append in Hsp.
  apply andb_true_iff in Hsp as [_ Hsp]. simpl in Hsp.
  destruct (base64.DecodeString value) as [raw [off|]] eqn:Hd.
  - exists off. apply (first_defect _ _ _ _ _ _ _ Hf Hpre).
    unfold tokenError, valueError. rewrite Hs, Ht, Hd. reflexivity.
  - exfalso.
    assert (Hch : (base64.decode value 0 (base64.Quantum 0 []) []).2 = None).
    { unfold base64.DecodeString in Hd. rewrite Hd. reflexivity. }
    apply decode_chars in Hch.
    pose proof (allChars_and _ _ _ Hch Hsp) as Hboth.
    assert (Hok : allChars isBase64Char value = true).
    { eapply allChars_impl; [| exact Hboth]. intros ch Hc. simpl in Hc.
      destruct (isBase64Char ch); [reflexivity |].
      destruct (base64.isNewline ch) eqn:Hn; [| discriminate].
      apply isNewline_asciiSpace in Hn. rewrite Hn in Hc. discriminate. }
    congruence.
Qed.

Lemma stray_character_rejected_witness :
  exists off,
    NewCheckerForHashes [] "t3-w8PD t3-w8-D" toyTable = Err (ErrBase64 off).
Proof.
  apply (stray_character_rejected [] "t3-w8PD t3-w8-D" toyTable
           ["t3-w8PD"] [] "t3-w8-D" "t3" "w8-D" (mkHashFunc 3 (toySum 3)));
    vm_compute; reflexivity.
Defined.

(** X15.  The loop of [NewCheckerForHashes] splits a field at its first
    ['-']: when [IndexRune] finds one, the field is the name, the ['-']
    and the value put together, the index lies inside the field, and the
    name holds no ['-'] (the value may). *)
Theorem split_at_first_dash (field : string) :
  let idx := strings.IndexRune field "-"%char in
  idx <> (-1)%Z ->
  (0 <= idx < Z.of_nat (String.length field))%Z /\
  field = strings.slice_to field idx
          +:+ String "-"%char (strings.slice_from field (idx + 1)) /\
  strings.IndexByte (strings.slice_to field idx) "-"%char = (-1)%Z.
Proof.
  intros idx Hidx. split.
  - destruct (IndexByte_range field "-"%char) as [H | H];
      [contradiction | exact H].
  - apply splitField_inv. unfold splitField. fold idx.
    destruct (Z.eqb_spec idx (-1)); [contradiction | reflexivity].
Qed.

Lemma split_at_first_dash_witness :
  (0 <= 6 < Z.of_nat (String.length "sha256-ab-c"))%Z /\
  "sha256-ab-c" = "sha256" +:+ String "-"%char "ab-c" /\
  strings.IndexByte "sha256" "-"%char = (-1)%Z.
Proof.
  apply (split_at_first_dash "sha256-ab-c"). vm_compute. discriminate.
Defined.

Lemma fieldNames_app (a b : list string) :
  fieldNames (a ++ b) = fieldNames a ++ fieldNames b.
Proof. unfold fieldNames. rewrite omap_app, fmap_app. reflexivity. Qed.

Lemma valuesFor_app (n : string) (a b : list string) :
  valuesFor n (a ++ b) = valuesFor n a ++ valuesFor n b.
Proof.
  unfold valuesFor. rewrite omap_app, filter_app, fmap_app. reflexivity.
Qed.

Lemma valuesFor_elem_iff (n v : string) (toks : list string) :
  v ∈ valuesFor n toks <->
  exists t, t ∈ toks /\ splitField t = Some (n, v).
Proof.
  split; [apply valuesFor_elem |].
  intros [t [Ht Hs]]. unfold valuesFor.
  apply list_elem_of_fmap. exists (n, v). split; [reflexivity |].
  apply list_elem_of_filter. split; [reflexivity |].
  apply list_elem_of_omap. exists t. auto.
Qed.

Lemma fieldNames_elem_iff (n : string) (toks : list string) :
  n ∈ fieldNames toks <->
  exists t v, t ∈ toks /\ splitField t = Some (n, v).
Proof.
  unfold fieldNames. split.
  - intros Hin. apply list_elem_of_fmap in Hin as [[k v] [-> Hin]].
    apply list_elem_of_omap in Hin as [t [Ht Hs]]. exists t, v. auto.
  - intros [t [v [Ht Hs]]]. apply list_elem_of_fmap. exists (n, v).
    split; [reflexivity |]. apply list_elem_of_omap. exists t. auto.
Qed.

(** The verdict of [Check] carries over from one constructed [Checker] to
    another that has no further names and no fewer values per name. *)
Lemma verdict_transfer (hp1 hp2 : heap) (table : gmap string HashFunc)
    (toks1 toks2 : list string) (data : list byte)
    (st1 st2 : heap) (c1 c2 : Checker) :
  built hp1 table toks1 data st1 c1 ->
  built hp2 table toks2 data st2 c2 ->
  (forall n, n ∈ fieldNames toks2 -> n ∈ fieldNames toks1) ->
  (forall n v, v ∈ valuesFor n toks1 -> v ∈ valuesFor n toks2) ->
  Check st1 c1 = Some None -> Check st2 c2 = Some None.
Proof.
  intros Hb1 Hb2 Hnames Hvals Hc1.
  destruct (CheckIn_built _ _ _ _ _ _ (map_to_list (hashes c1)) Hb1)
    as [r1 [Hr1 Hiff1]]; [reflexivity |].
  destruct (CheckIn_built _ _ _ _ _ _ (map_to_list (hashes c2)) Hb2)
    as [r2 [Hr2 Hiff2]]; [reflexivity |].
  unfold Check in *. rewrite Hr1 in Hc1. injection Hc1 as ->.
  rewrite Hr2. f_equal. apply Hiff2. intros name a2 Ha2.
  destruct Hb1 as [w1 [Hwf1 _]]. destruct Hb2 as [w2 [Hwf2 _]].
  assert (Hin : name ∈ fieldNames toks1).
  { apply Hnames. apply (wf_names _ _ _ _ _ _ _ Hwf2). eauto. }
  apply (wf_names _ _ _ _ _ _ _ Hwf1) in Hin as [a1 Ha1].
  destruct (proj1 Hiff1 eq_refl name a1 Ha1) as [f [Ht Hv]].
  exists f. split; [exact Ht |].
  unfold Expected in *.
  rewrite (wf_expected _ _ _ _ _ _ _ Hwf1) in Hv.
  rewrite (wf_expected _ _ _ _ _ _ _ Hwf2). apply Hvals. exact Hv.
Qed.

Lemma written_built (hp0 : heap) (sri : string)
    (table : gmap string HashFunc) (st : heap) (c : Checker)
    (bs : list (list byte)) (st' : heap) :
  NewCheckerForHashes hp0 sri table = Ok (st, c) ->
  WriteAll st c bs = Some st' ->
  built hp0 table (strings.Fields sri) (concat bs) st' c.
Proof.
  intros Hok Hw. apply NewCheckerForHashes_built in Hok as [_ Hb].
  destruct (WriteAll_built _ _ _ bs _ _ _ Hb) as [x [Hx Hb']].
  rewrite Hw in Hx. injection Hx as <-. exact Hb'.
Qed.

(** X16.  More alternatives never hurt: when a descriptor is extended by
    further tokens for algorithms it already mentions and both
    descriptors are accepted, content that passes [Check] for the first
    passes it for the second. *)
Theorem more_values_never_hurt (hp1 hp2 : heap) (sri1 sri2 : string)
    (table : gmap string HashFunc) (extra : list string)
    (st1 st2 : heap) (c1 c2 : Checker) (bs : list (list byte))
    (st1' st2' : heap) :
  strings.Fields sri2 = strings.Fields sri1 ++ extra ->
  fieldNames extra ⊆ fieldNames (strings.Fields sri1) ->
  NewCheckerForHashes hp1 sri1 table = Ok (st1, c1) ->
  NewCheckerForHashes hp2 sri2 table = Ok (st2, c2) ->
  WriteAll st1 c1 bs = Some st1' ->
  WriteAll st2 c2 bs = Some st2' ->
  Check st1' c1 = Some None ->
  Check st2' c2 = Some None.
Proof.
  intros Hf Hsub Hok1 Hok2 Hw1 Hw2.
  apply (verdict_transfer hp1 hp2 table (strings.Fields sri1)
           (strings.Fields sri2) (concat bs)).
  - eapply written_built; eassumption.
  - eapply written_built; eassumption.
  - intros n Hn. rewrite Hf, fieldNames_app in Hn.
    apply elem_of_app in Hn as [Hn | Hn]; [exact Hn | apply Hsub; exact Hn].
  - intros n v Hv. rewrite Hf, valuesFor_app. apply elem_of_app. left.
    exact Hv.
Qed.

Lemma more_values_never_hurt_witness :
  Check toyFinal2 toyState2.2 = Some None.
Proof.
  apply (more_values_never_hurt [] [] toySri toySri2 toyTable
           ["t6-AAAAAAAA"] toyState.1 toyState2.1 toyState.2 toyState2.2
           toyWrites toyFinal toyFinal2); try (vm_compute; reflexivity).
  change (fieldNames ["t6-AAAAAAAA"]) with ["t6"].
  change (fieldNames (strings.Fields toySri)) with ["t3"; "t6"; "t3"].
  intros x Hx. apply list_elem_of_singleton in Hx. subst x.
  right. left.
Defined.

(** X17.  The order of the tokens of a descriptor matters neither for
    acceptance nor for the verdict: of two descriptors whose tokens are a
    permutation of each other, both are accepted or both refused, and
    once both are constructed the same content passes [Check] for both
    or for neither. *)
Theorem token_order_irrelevant (hp1 hp2 : heap) (sri1 sri2 : string)
    (table : gmap string HashFunc) :
  strings.Fields sri1 ≡ₚ strings.Fields sri2 ->
  ((exists st, NewCheckerForHashes hp1 sri1 table = Ok st) <->
   (exists st, NewCheckerForHashes hp2 sri2 table = Ok st)) /\
  forall st1 st2 c1 c2 bs st1' st2',
    NewCheckerForHashes hp1 sri1 table = Ok (st1, c1) ->
    NewCheckerForHashes hp2 sri2 table = Ok (st2, c2) ->
    WriteAll st1 c1 bs = Some st1' ->
    WriteAll st2 c2 bs = Some st2' ->
    (Check st1' c1 = Some None <-> Check st2' c2 = Some None).
Proof.
  intros Hperm.
  assert (Hacc : forall hpa hpb sa sb,
             strings.Fields sa ≡ₚ strings.Fields sb ->
             (exists st, NewCheckerForHashes hpa sa table = Ok st) ->
             exists st, NewCheckerForHashes hpb sb table = Ok st).
  { intros hpa hpb sa sb Hp [[st c] Hok].
    apply NewCheckerForHashes_built in Hok as [Hpe _].
    pose proof (NewCheckerForHashes_spec hpb sb table) as Hs.
    unfold parseError in Hpe, Hs.
    destruct (firstError table (strings.Fields sa)) eqn:Hfa; [discriminate |].
    assert (Hfb : firstError table (strings.Fields sb) = None).
    { apply firstError_None. rewrite <- Hp. apply firstError_None. exact Hfa. }
    rewrite Hfb in Hs.
    destruct (strings.Fields sb) as [|t l] eqn:Hb.
    - apply Permutation_nil_r in Hp. rewrite Hp in Hpe. discriminate.
    - destruct Hs as [hp [c' [Hs _]]]. eauto. }
  assert (Hver : forall hpa hpb sa sb sta stb ca cb bs sta' stb',
             strings.Fields sa ≡ₚ strings.Fields sb ->
             NewCheckerForHashes hpa sa table = Ok (sta, ca) ->
             NewCheckerForHashes hpb sb table = Ok (stb, cb) ->
             WriteAll sta ca bs = Some sta' ->
             WriteAll stb cb bs = Some stb' ->
             Check sta' ca = Some None -> Check stb' cb = Some None).
  { intros hpa hpb sa sb sta stb ca cb bs sta' stb' Hp Hoka Hokb Hwa Hwb.
    apply (verdict_transfer hpa hpb table (strings.Fields sa)
             (strings.Fields sb) (concat bs)).
    - eapply written_built; eassumption.
    - eapply written_built; eassumption.
    - intros n Hn. apply fieldNames_elem_iff in Hn as [t [v [Ht Hs]]].
      apply fieldNames_elem_iff. exists t, v. rewrite Hp. auto.
    - intros n v Hv. apply valuesFor_elem_iff in Hv as [t [Ht Hs]].
      apply valuesFor_elem_iff. exists t. rewrite <- Hp. auto. }
  split.
  - split; apply Hacc; [exact Hperm | symmetry; exact Hperm].
  - intros st1 st2 c1 c2 bs st1' st2' Hok1 Hok2 Hw1 Hw2. split.
    + apply (Hver hp1 hp2 sri1 sri2 st1 st2 c1 c2 bs st1' st2');
        assumption.
    + apply (Hver hp2 hp1 sri2 sri1 st2 st1 c2 c1 bs st2' st1');
        try assumption. symmetry. exact Hperm.
Qed.

Lemma token_order_irrelevant_witness :
  Check toyFinal toyState.2 = Some None <->
  Check toyFinal3 toyState3.2 = Some None.
Proof.
  refine (proj2
            (token_order_irrelevant [] [] toySri toySri3 toyTable _)
            toyState.1 toyState3.1 toyState.2 toyState3.2 toyWrites
            toyFinal toyFinal3 _ _ _ _); try (vm_compute; reflexivity).
  change (strings.Fields toySri) with ["t3-w8PD"; "t6-w8PDw8PD"; "t3-AAAA"].
  change (strings.Fields toySri3) with ["t6-w8PDw8PD"; "t3-AAAA"; "t3-w8PD"].
  apply (Permutation_app_comm ["t3-w8PD"] ["t6-w8PDw8PD"; "t3-AAAA"]).
Defined.

(** X18.  The writer a constructed [Checker] holds covers every
    accumulator of the parse exactly once, in the order they were
    created: the accumulator itself when there is one, and otherwise the
    [MultiWriter] over all of them. *)
Theorem writer_covers_accumulators (hp0 : heap) (sri : string)
    (table : gmap string HashFunc) (hp : heap) (c : Checker) :
  NewCheckerForHashes hp0 sri table = Ok (hp, c) ->
  w c = (if decide (size (hashes c) = 1)
         then Some (io.HashWriter (length hp0))
         else Some (io.MultiWriter
                      (seq (length hp0) (size (hashes c))))) /\
  forall name a, hashes c !! name = Some a ->
    length hp0 <= a < length hp0 + size (hashes c).
Proof.
  intros Hok. apply NewCheckerForHashes_built in Hok as [_ Hb].
  destruct Hb as [writers [Hwf [Hne Hw]]].
  pose proof (wf_size _ _ _ _ _ _ _ Hwf) as Hsz.
  destruct (wf_cells _ _ _ _ _ _ _ Hwf) as [cells [Hhp Hws]].
  assert (Hlen : length cells = size (hashes c)).
  { rewrite Hsz, Hws, length_seq. reflexivity. }
  split.
  - rewrite Hw, Hws, Hlen.
    destruct (size (hashes c)) as [|[|k]] eqn:Hk.
    + rewrite Hws, Hlen in Hne. contradiction.
    + reflexivity.
    + reflexivity.
  - intros name a Ha.
    destruct (wf_hashes _ _ _ _ _ _ _ Hwf _ _ Ha) as [Hle [f [_ Hl]]].
    split; [exact Hle |]. apply lookup_lt_Some in Hl.
    rewrite Hhp, length_app, Hlen in Hl. exact Hl.
Qed.

Lemma writer_covers_accumulators_witness :
  w toyState.2 = (if decide (size (hashes toyState.2) = 1)
                  then Some (io.HashWriter (length (@nil hash.Hash)))
                  else Some (io.MultiWriter
                               (seq (length (@nil hash.Hash))
                                    (size (hashes toyState.2))))) /\
  forall name a, hashes toyState.2 !! name = Some a ->
    length (@nil hash.Hash) <= a
    < length (@nil hash.Hash) + size (hashes toyState.2).
Proof.
  apply (writer_covers_accumulators [] toySri toyTable toyState.1).
  vm_compute. reflexivity.
Defined.

Lemma defaultHashes_lookup
    (sha256_sum sha384_sum sha512_sum : list byte -> list byte)
    (name : string) (f : HashFunc) :
  defaultHashes sha256_sum sha384_sum sha512_sum !! name = Some f ->
  (name = "sha256" /\ hashSize f = 32) \/
  (name = "sha384" /\ hashSize f = 48) \/
  (name = "sha512" /\ hashSize f = 64).
Proof.
  unfold defaultHashes. intros H.
  destruct (decide ("sha256" = name)) as [<- | H1].
  { rewrite lookup_insert_eq in H. injection H as <-. auto. }
  rewrite lookup_insert_ne in H by exact H1.
  destruct (decide ("sha384" = name)) as [<- | H2].
  { rewrite lookup_insert_eq in H. injection H as <-. auto. }
  rewrite lookup_insert_ne in H by exact H2.
  destruct (decide ("sha512" = name)) as [<- | H3].
  { rewrite lookup_insert_eq in H. injection H as <-. auto. }
  rewrite lookup_insert_ne in H by exact H3.
  rewrite lookup_empty in H. discriminate.
Qed.

(** X19.  What [NewChecker] accepts: every expected value belongs to
    [sha256], [sha384] or [sha512] and is 44, 64 or 88 characters long
    respectively; [NewCheckerWithSHA1] accepts in addition values of 28
    characters for [sha1]. *)
Theorem preset_value_lengths
    (sha1_sum sha256_sum sha384_sum sha512_sum : list byte -> list byte)
    (hp0 : heap) (sri : string) (hp : heap) (c : Checker) (name v : string) :
  v ∈ Expected c name ->
  (NewChecker sha256_sum sha384_sum sha512_sum hp0 sri = Ok (hp, c) ->
   (name = "sha256" /\ String.length v = 44) \/
   (name = "sha384" /\ String.length v = 64) \/
   (name = "sha512" /\ String.length v = 88)) /\
  (NewCheckerWithSHA1 sha1_sum sha256_sum sha384_sum sha512_sum hp0 sri
   = Ok (hp, c) ->
   (name = "sha1" /\ String.length v = 28) \/
   (name = "sha256" /\ String.length v = 44) \/
   (name = "sha384" /\ String.length v = 64) \/
   (name = "sha512" /\ String.length v = 88)).
Proof.
  intros Hv. unfold NewChecker, NewCheckerWithSHA1, sha1Hashes. split.
  - intros Hok. apply NewCheckerForHashes_built in Hok as [_ Hb].
    destruct (expected_shape _ _ _ _ _ _ _ _ Hb Hv) as [_ [_ [f [Hf Hl]]]].
    apply defaultHashes_lookup in Hf
      as [[-> Hs] | [[-> Hs] | [-> Hs]]]; rewrite Hs in Hl; auto.
  - intros Hok. apply NewCheckerForHashes_built in Hok as [_ Hb].
    destruct (expected_shape _ _ _ _ _ _ _ _ Hb Hv) as [_ [_ [f [Hf Hl]]]].
    destruct (decide ("sha1" = name)) as [<- | Hne].
    + rewrite lookup_insert_eq in Hf. injection Hf as <-. auto.
    + rewrite lookup_insert_ne in Hf by exact Hne.
      apply defaultHashes_lookup in Hf
        as [[-> Hs] | [[-> Hs] | [-> Hs]]]; rewrite Hs in Hl; auto.
Qed.

Lemma preset_value_lengths_witness :
  ("sha1" = "sha1" /\ String.length "plyJ8jPttaMEVHl2WQbzDVT4pfU=" = 28) \/
  ("sha1" = "sha256" /\ String.length "plyJ8jPttaMEVHl2WQbzDVT4pfU=" = 44) \/
  ("sha1" = "sha384" /\ String.length "plyJ8jPttaMEVHl2WQbzDVT4pfU=" = 64) \/
  ("sha1" = "sha512" /\ String.length "plyJ8jPttaMEVHl2WQbzDVT4pfU=" = 88).
Proof.
  apply (proj2 (preset_value_lengths (toySum 20) (toySum 32) (toySum 48)
                  (toySum 64) [] "sha1-plyJ8jPttaMEVHl2WQbzDVT4pfU="
                  sha1State.1 sha1State.2 "sha1"
                  "plyJ8jPttaMEVHl2WQbzDVT4pfU=" ltac:(vm_compute; left))).
  vm_compute. reflexivity.
Defined.

Lemma firstError_Some_split (table : gmap string HashFunc)
    (toks : list string) (e : error) :
  firstError table toks = Some e ->
  exists pre tok post,
    toks = pre ++ tok :: post /\
    firstError table pre = None /\
    tokenError table tok = Some e.
Proof.
  induction toks as [|t toks IH]; simpl; [discriminate |].
  destruct (tokenError table t) as [e'|] eqn:Ht.
  - intros [= ->]. exists [], t, toks. auto.
  - intros Hfe. destruct (IH Hfe) as [pre [tok [post [-> [Hpre Htok]]]]].
    exists (t :: pre), tok, post. simpl. rewrite Ht. auto.
Qed.

(** X20.  Every error of the parser is justified by the descriptor: it is
    the empty-descriptor error of a descriptor without tokens, or there
    is a token whose defect it is, all tokens before it being free of
    defects. *)
Theorem parse_error_justified (hp0 : heap) (sri : string)
    (table : gmap string HashFunc) (e : error) :
  NewCheckerForHashes hp0 sri table = Err e ->
  (strings.Fields sri = [] /\ e = ErrEmpty sri) \/
  exists pre tok post,
    strings.Fields sri = pre ++ tok :: post /\
    Forall (fun t => tokenError table t = None) pre /\
    tokenError table tok = Some e.
Proof.
  intros Herr. pose proof (NewCheckerForHashes_spec hp0 sri table) as Hs.
  unfold parseError in Hs.
  destruct (firstError table (strings.Fields sri)) as [e'|] eqn:Hfe.
  - rewrite Hs in Herr. injection Herr as ->. right.
    destruct (firstError_Some_split _ _ _ Hfe)
      as [pre [tok [post [Heq [Hpre Htok]]]]].
    exists pre, tok, post. rewrite firstError_None in Hpre. auto.
  - destruct (strings.Fields sri) as [|t toks].
    + rewrite Hs in Herr. injection Herr as <-. left. auto.
    + destruct Hs as [hp [c [Hs _]]]. rewrite Hs in Herr. discriminate.
Qed.

Lemma parse_error_justified_witness :
  (strings.Fields "t3-w8PD t9-AAAA" = [] /\
   ErrUnknownHash "t9" = ErrEmpty "t3-w8PD t9-AAAA") \/
  exists pre tok post,
    strings.Fields "t3-w8PD t9-AAAA" = pre ++ tok :: post /\
    Forall (fun t => tokenError toyTable t = None) pre /\
    tokenError toyTable tok = Some (ErrUnknownHash "t9").
Proof.
  apply (parse_error_justified [] "t3-w8PD t9-AAAA" toyTable).
  vm_compute. reflexivity.
Defined.
